(** * The task runner of proton's initializer: a shallow embedding

    Source: searchcore/src/vespa/searchcore/proton/initializer/task_runner.cpp

    Tasks live in an arena and are named by their index in it, which stands
    for the identity of an [InitializerTask::SP].  Executors are named by a
    number; a unit of work handed to [Executor::execute] is kept, with the
    name of the executor it was handed to, in the list of pending units until
    some step runs it.  Units run one at a time (the serialisation the
    context executor has to provide; the body of a task touches nothing of
    the runner, so that its run counts as one step too); which pending unit
    runs next is not determined. *)

From Stdlib Require Import ZArith Lia.
From stdpp Require Import base option list relations gmap sets.

#[global] Set Warnings "-clear-no-such-hyp".

Open Scope nat_scope.

(** ** Tasks *)

Inductive State := BLOCKED | RUNNING | DONE.

#[global] Instance State_eq_dec : EqDecision State.
Proof. solve_decision. Defined.

Abbreviation TaskId := nat (only parsing).

Record InitializerTask := mkTask {
  _state : State;
  _dependencies : list TaskId;
}.

Abbreviation Heap := (list InitializerTask) (only parsing).

(** [task->getState()]; [None] stands for a pointer to no task. *)
Definition getState (h : Heap) (t : TaskId) : option State :=
  _state <$> h !! t.

(** [task->getDependencies()] *)
Definition getDependencies (h : Heap) (t : TaskId) : option (list TaskId) :=
  _dependencies <$> h !! t.

Definition withState (s : State) (task : InitializerTask) : InitializerTask :=
  mkTask s (_dependencies task).

(** Modelled from the spec: [InitializerTask::setRunning] and
    [InitializerTask::setDone] are declared in a header that is not among the
    sources; the spec has them move the state to Running and to Done. *)
Definition setRunning (t : TaskId) (h : Heap) : Heap :=
  alter (withState RUNNING) t h.

Definition setDone (t : TaskId) (h : Heap) : Heap :=
  alter (withState DONE) t h.

(** ** Readiness resolution *)

(** [TaskList] is a vector of task pointers, [TaskSet] a set of them. *)
Abbreviation TaskList := (list TaskId) (only parsing).
Abbreviation TaskSet := (gset TaskId) (only parsing).

(** The two out-parameters of [getReadyTasks]. *)
Abbreviation Found := (TaskList * TaskSet)%type (only parsing).

(** The [for (const auto &dep : deps)] loop with its [switch]; [rec] is the
    recursive call, [ready] the local flag. *)
Fixpoint depsLoop (rec : TaskId → Found → option Found) (h : Heap)
    (deps : list TaskId) (ready : bool) (acc : Found) : option (bool * Found) :=
  match deps with
  | [] => Some (ready, acc)
  | dep :: rest =>
      match getState h dep with
      | None => None
      | Some RUNNING => depsLoop rec h rest false acc
      | Some DONE => depsLoop rec h rest ready acc
      | Some BLOCKED =>
          match rec dep acc with
          | None => None
          | Some acc' => depsLoop rec h rest false acc'
          end
      end
  end.

(** [TaskRunner::getReadyTasks].  The recursion of the source is bounded by
    the [checked] set; here [fuel] bounds the depth of the nesting, and
    [getReadyTasks_enough_fuel] shows that one more than the number of tasks
    is always enough. *)
Fixpoint getReadyTasks (fuel : nat) (h : Heap) (task : TaskId) (acc : Found)
    : option Found :=
  match fuel with
  | O => None
  | S fuel' =>
      match h !! task with
      | None => None
      | Some tk =>
          if decide (_state tk = BLOCKED) then
            if decide (task ∈ acc.2) then Some acc
            else
              match depsLoop (getReadyTasks fuel' h) h (_dependencies tk) true
                      (acc.1, {[task]} ∪ acc.2) with
              | None => None
              | Some (ready, (readyTasks, checked)) =>
                  if ready then Some (readyTasks ++ [task], checked)
                  else Some (readyTasks, checked)
              end
          else Some acc
      end
  end.

(** ** Executors, the runner and the context *)

Abbreviation ExecutorId := nat (only parsing).

(** The closures handed to an executor. *)
Inductive Unit :=
  | PollUnit                   (* [=]() { pollTask(context); } *)
  | BodyUnit (task : TaskId)   (* { task->run(); context->execute(std::move(done)); } *)
  | DoneUnit (task : TaskId).  (* [=]() { setTaskDone( *task, context); } *)

#[global] Instance Unit_eq_dec : EqDecision Unit.
Proof. solve_decision. Defined.

(** [_runningTasks] is initialised with [0u]: an unsigned 32-bit counter. *)
Definition wrap32 (z : Z) : Z := (z mod 2 ^ 32)%Z.

Record TaskRunner := mkTaskRunner {
  _executor : ExecutorId;
  _runningTasks : Z;
}.

(** Modelled from the spec: [TaskRunner::Context] is declared in a header that
    is not among the sources.  The spec gives it a root task, a reference to
    the context executor, a one-shot done task and a done flag. *)
Record Context := mkContext {
  _rootTask : TaskId;
  _contextExecutor : ExecutorId;
  _done : bool;
}.

Record World := mkWorld {
  heap : Heap;
  runner : TaskRunner;
  context : Context;
  (** units handed to an executor and not yet run, with that executor *)
  pending : list (ExecutorId * Unit);
  (** tasks handed to [_executor], in order *)
  dispatched : list TaskId;
  (** bodies run so far, with the executor that ran them *)
  ran : list (ExecutorId * TaskId);
  (** invocations of the done task, with the executor they happened on *)
  callbacks : list ExecutorId;
}.

(** [TaskRunner::TaskRunner] and [TaskRunner::~TaskRunner]; [None] is the
    failed assertion. *)
Definition TaskRunner_new (executor : ExecutorId) : TaskRunner :=
  mkTaskRunner executor 0.

Definition TaskRunner_delete (r : TaskRunner) : option () :=
  if decide (_runningTasks r = 0%Z) then Some () else None.

(** [Executor::execute]: the unit joins the pending ones. *)
Definition execute (e : ExecutorId) (u : Unit) (w : World) : World :=
  mkWorld (heap w) (runner w) (context w) (pending w ++ [(e, u)])
          (dispatched w) (ran w) (callbacks w).

(** [TaskRunner::setTaskRunning] *)
Definition setTaskRunning (t : TaskId) (w : World) : World :=
  mkWorld (setRunning t (heap w))
          (mkTaskRunner (_executor (runner w))
                        (wrap32 (_runningTasks (runner w) + 1)))
          (context w) (pending w) (dispatched w) (ran w) (callbacks w).

Definition noteDispatched (t : TaskId) (w : World) : World :=
  mkWorld (heap w) (runner w) (context w) (pending w)
          (dispatched w ++ [t]) (ran w) (callbacks w).

(** [TaskRunner::internalRunTask]; [None] is the failed assertion. *)
Definition internalRunTask (t : TaskId) (w : World) : option World :=
  match getState (heap w) t with
  | Some BLOCKED =>
      let w1 := setTaskRunning t w in
      Some (noteDispatched t (execute (_executor (runner w1)) (BodyUnit t) w1))
  | _ => None
  end.

(** [TaskRunner::internalRunTasks] *)
Fixpoint internalRunTasks (taskList : TaskList) (w : World) : option World :=
  match taskList with
  | [] => Some w
  | task :: rest =>
      match internalRunTask task w with
      | None => None
      | Some w' => internalRunTasks rest w'
      end
  end.

(** Modelled from the spec: [Context::setDone] is not among the sources; the
    spec has it set the done flag and, right after, invoke the done task.
    [e] is the executor running the poll. *)
Definition Context_setDone (e : ExecutorId) (w : World) : World :=
  mkWorld (heap w) (runner w)
          (mkContext (_rootTask (context w)) (_contextExecutor (context w)) true)
          (pending w) (dispatched w) (ran w) (callbacks w ++ [e]).

(** [TaskRunner::pollTask], run by executor [e]. *)
Definition pollTask (e : ExecutorId) (w : World) : option World :=
  if _done (context w) then Some w
  else
    match getState (heap w) (_rootTask (context w)) with
    | None => None
    | Some DONE => Some (Context_setDone e w)
    | Some _ =>
        match getReadyTasks (S (length (heap w))) (heap w)
                (_rootTask (context w)) ([], ∅) with
        | None => None
        | Some (readyTasks, _) => internalRunTasks readyTasks w
        end
    end.

(** [TaskRunner::setTaskDone], run by executor [e]. *)
Definition setTaskDone (e : ExecutorId) (t : TaskId) (w : World) : option World :=
  match heap w !! t with
  | None => None
  | Some _ =>
      pollTask e
        (mkWorld (setDone t (heap w))
                 (mkTaskRunner (_executor (runner w))
                               (wrap32 (_runningTasks (runner w) - 1)))
                 (context w) (pending w) (dispatched w) (ran w) (callbacks w))
  end.

(** The closure of [internalRunTask] that a worker runs: the body of the
    task, which touches nothing of the runner, and then the hand-over of the
    done unit to the context. *)
Definition runBody (e : ExecutorId) (t : TaskId) (w : World) : World :=
  execute (_contextExecutor (context w)) (DoneUnit t)
    (mkWorld (heap w) (runner w) (context w) (pending w)
             (dispatched w) (ran w ++ [(e, t)]) (callbacks w)).

Definition runUnit (e : ExecutorId) (u : Unit) (w : World) : option World :=
  match u with
  | PollUnit => pollTask e w
  | BodyUnit t => Some (runBody e t w)
  | DoneUnit t => setTaskDone e t w
  end.

Definition withPending (p : list (ExecutorId * Unit)) (w : World) : World :=
  mkWorld (heap w) (runner w) (context w) p
          (dispatched w) (ran w) (callbacks w).

(** One step of the system: some executor takes one of its pending units and
    runs it to its end. *)
Definition step (w w' : World) : Prop :=
  ∃ p1 e u p2,
    pending w = p1 ++ (e, u) :: p2 ∧
    runUnit e u (withPending (p1 ++ p2) w) = Some w'.

(** The asynchronous [TaskRunner::runTask(rootTask, contextExecutor, doneTask)]
    on a runner [r] and an arena [h]: it makes the context and hands the first
    poll to the context executor. *)
Definition runTask (r : TaskRunner) (h : Heap)
    (rootTask : TaskId) (contextExecutor : ExecutorId) : World :=
  execute contextExecutor PollUnit
    (mkWorld h r (mkContext rootTask contextExecutor false) [] [] [] []).

(** A scheduler for experiments: executors take the oldest pending unit. *)
Fixpoint drain (n : nat) (w : World) : option World :=
  match n, pending w with
  | _, [] => Some w
  | O, _ => None
  | S n', (e, u) :: p =>
      match runUnit e u (withPending p w) with
      | None => None
      | Some w' => drain n' w'
      end
  end.

(** ** The dependency graph *)

Definition graph (h : Heap) : list (list TaskId) := _dependencies <$> h.

(** [depends h t d]: [d] is one of the dependencies of [t]. *)
Definition depends (h : Heap) (t d : TaskId) : Prop :=
  ∃ ds, graph h !! t = Some ds ∧ d ∈ ds.

(** An edge into a dependency that is still blocked: the edges the readiness
    traversal follows. *)
Definition bdep (h : Heap) (t d : TaskId) : Prop :=
  depends h t d ∧ getState h d = Some BLOCKED.

Definition depsDone (h : Heap) (t : TaskId) : Prop :=
  ∀ d, depends h t d → getState h d = Some DONE.

(** Every dependency pointer points to a task of the arena. *)
Definition ptrs_valid (h : Heap) : Prop :=
  Forall (λ tk, Forall (λ d, d < length h) (_dependencies tk)) h.

(** Tasks are constructed blocked. *)
Definition allBlocked (h : Heap) : Prop :=
  Forall (λ tk, _state tk = BLOCKED) h.

Definition acyclic (h : Heap) : Prop := ∀ t, ¬ tc (depends h) t t.

(** A sufficient test for acyclicity: every dependency has a larger index. *)
Definition ranked (h : Heap) : Prop :=
  Forall (λ p, Forall (λ d, p.1 < d) (_dependencies p.2)) (imap pair h).

(** The identities of all tasks of the arena. *)
Definition arena (h : Heap) : gset nat := list_to_set (seq 0 (length h)).

Definition countState (s : State) (h : Heap) : nat :=
  length (filter (λ tk, _state tk = s) h).

(** The tasks that have a unit in flight. *)
Definition token (eu : ExecutorId * Unit) : option TaskId :=
  match eu.2 with
  | PollUnit => None
  | BodyUnit t | DoneUnit t => Some t
  end.

Definition tokens (p : list (ExecutorId * Unit)) : list TaskId := omap token p.

Definition weight (eu : ExecutorId * Unit) : nat :=
  match eu.2 with BodyUnit _ => 2 | _ => 1 end.

(** Decreases with every step. *)
Definition measure (w : World) : nat :=
  3 * countState BLOCKED (heap w) + sum_list_with weight (pending w).

Definition blocked (deps : list TaskId) : InitializerTask := mkTask BLOCKED deps.

(** A depends on B and C, which both depend on D. *)
Definition diamond : Heap :=
  [blocked [1; 2]; blocked [3]; blocked [3]; blocked []].

(** The root depends on a cycle (1 and 2 depend on each other) and on a
    free task. *)
Definition knot : Heap :=
  [blocked [1; 3]; blocked [2]; blocked [1]; blocked []].

(** The root waits for a task in flight and for a blocked task whose only
    dependency is done. *)
Definition inflight : Heap :=
  [blocked [1; 2]; mkTask RUNNING []; blocked [3]; mkTask DONE []].

Example diamond_first_poll :
  fst <$> getReadyTasks 5 diamond 0 ([], ∅) = Some [3].
Proof. vm_compute. reflexivity. Qed.

Example diamond_run :
  (λ w, (_state <$> heap w, dispatched w, callbacks w, _runningTasks (runner w)))
    <$> drain 20 (runTask (TaskRunner_new 7) diamond 0 9)
  = Some ([DONE; DONE; DONE; DONE], [3; 1; 2; 0], [9], 0%Z).
Proof. vm_compute. reflexivity. Qed.

(** [visit_ok start acc acc' new]: from the out-parameters [acc], visiting
    the tasks [start] one after the other leaves [acc'], with [new] the
    tasks appended to the ready list. *)
Record visit_ok (h : Heap) (start : list TaskId) (acc acc' : Found) (new : TaskList)
    : Prop := {
  vo_ready : acc'.1 = acc.1 ++ new;
  vo_mono : acc.2 ⊆ acc'.2;
  vo_nodup : NoDup new;
  vo_new : ∀ u, u ∈ new → u ∈ acc'.2 ∧ u ∉ acc.2;
  vo_blocked : ∀ u, u ∈ acc'.2 → u ∉ acc.2 → getState h u = Some BLOCKED;
  vo_reach : ∀ u, u ∈ acc'.2 → u ∉ acc.2 →
    ∃ s, s ∈ start ∧ getState h s = Some BLOCKED ∧ rtc (bdep h) s u;
  vo_ready_iff : ∀ u, u ∈ acc'.2 → u ∉ acc.2 → u ∈ new ↔ depsDone h u;
  vo_closed : ∀ u d, u ∈ acc'.2 → u ∉ acc.2 → bdep h u d → d ∈ acc'.2;
  vo_start : ∀ s, s ∈ start → getState h s = Some BLOCKED → s ∈ acc'.2;
}.

(** [started l w w']: [w'] is [w] after [internalRunTasks l]. *)
Record started (l : TaskList) (w w' : World) : Prop := {
  st_nodup : NoDup l;
  st_blocked : ∀ t, t ∈ l → getState (heap w) t = Some BLOCKED;
  st_state : ∀ u, getState (heap w') u =
                  if decide (u ∈ l) then Some RUNNING else getState (heap w) u;
  st_graph : graph (heap w') = graph (heap w);
  st_running : countState RUNNING (heap w') =
               countState RUNNING (heap w) + length l;
  st_blocked_count : countState BLOCKED (heap w') + length l =
                     countState BLOCKED (heap w);
  st_executor : _executor (runner w') = _executor (runner w);
  st_counter : ∀ n : Z, _runningTasks (runner w) = wrap32 n →
               _runningTasks (runner w') = wrap32 (n + Z.of_nat (length l));
  st_context : context w' = context w;
  st_pending : pending w' =
               pending w ++ ((λ t, (_executor (runner w), BodyUnit t)) <$> l);
  st_dispatched : dispatched w' = dispatched w ++ l;
  st_ran : ran w' = ran w;
  st_callbacks : callbacks w' = callbacks w;
}.

(** What holds in every world that a run from an arena of blocked tasks [h0] reaches,
    with [executor] the executor of the runner and [contextExecutor] and
    [root] those of the context. *)
Record Inv (h0 : Heap) (executor contextExecutor : ExecutorId) (root : TaskId)
    (w : World) : Prop := {
  inv_graph : graph (heap w) = graph h0;
  inv_executor : _executor (runner w) = executor;
  inv_root : _rootTask (context w) = root;
  inv_cexecutor : _contextExecutor (context w) = contextExecutor;
  inv_tok_nodup : NoDup (tokens (pending w));
  inv_tok : ∀ t, t ∈ tokens (pending w) ↔ getState (heap w) t = Some RUNNING;
  inv_counter : _runningTasks (runner w) =
                wrap32 (Z.of_nat (countState RUNNING (heap w)));
  inv_deps : ∀ t, getState (heap w) t = Some RUNNING ∨
                  getState (heap w) t = Some DONE → depsDone (heap w) t;
  inv_disp_nodup : NoDup (dispatched w);
  inv_disp : ∀ t, t ∈ dispatched w ↔
                  getState (heap w) t = Some RUNNING ∨
                  getState (heap w) t = Some DONE;
  inv_ran_nodup : NoDup (ran w).*2;
  inv_ran : ∀ t, t ∈ (ran w).*2 ↔
                 getState (heap w) t = Some DONE ∨
                 ∃ e, (e, DoneUnit t) ∈ pending w;
  inv_callbacks : callbacks w =
                  if _done (context w) then [contextExecutor] else [];
  inv_done : _done (context w) = true → getState (heap w) root = Some DONE;
  inv_tags : ∀ e u, (e, u) ∈ pending w →
                    e = match u with
                        | BodyUnit _ => executor
                        | _ => contextExecutor
                        end;
  inv_ran_tags : ∀ e t, (e, t) ∈ ran w → e = executor;
  inv_touched : ∀ t, getState (heap w) t = Some RUNNING ∨
                     getState (heap w) t = Some DONE →
                     rtc (depends h0) root t;
}.

(** How far a task has come. *)
Definition phase (s : State) : nat :=
  match s with BLOCKED => 0 | RUNNING => 1 | DONE => 2 end.

(** Something is still going to happen, or the run is over. *)
Definition live (w : World) : Prop :=
  _done (context w) = true ∨ (∃ e, (e, PollUnit) ∈ pending w) ∨
  tokens (pending w) ≠ [].

(** The moves of one task in one step. *)
Definition moves (s s' : option State) : Prop :=
  s' = s ∨ (s = Some BLOCKED ∧ s' = Some RUNNING) ∨
  (s = Some RUNNING ∧ s' = Some DONE).

(** ** The synchronous entry point *)

(** The [std::promise<bool>] of the synchronous [runTask]: its done task is
    [promise.set_value(true)], so the promise holds [true] from the first
    invocation of the done task on (a second invocation would throw). *)
Definition promise (w : World) : option bool :=
  match callbacks w with
  | [] => None
  | _ :: _ => Some true
  end.

(** [future.get()]: the caller waits until the promise is set, while the
    executors run what is pending (here: the oldest unit first).  [None]
    when the wait does not end within [n] units, or nothing is pending and
    the promise is not set. *)
Fixpoint await (n : nat) (w : World) : option World :=
  match promise w with
  | Some _ => Some w
  | None =>
      match n, pending w with
      | S n', (e, u) :: p =>
          match runUnit e u (withPending p w) with
          | Some w' => await n' w'
          | None => None
          end
      | _, _ => None
      end
  end.

(** The synchronous [TaskRunner::runTask(task)]: a thread stack executor of
    its own, named [local] here (its one thread and its stack size play no
    part), is the context executor of the asynchronous form, and the caller
    waits for the promise. *)
Definition runTaskSync (n : nat) (r : TaskRunner) (h : Heap) (task : TaskId)
    (local : ExecutorId) : option World :=
  await n (runTask r h task local).

(** A list in which every task comes after its dependencies. *)
Definition topological (h : Heap) (l : list TaskId) : Prop :=
  ∀ i t d, l !! i = Some t → depends h t d → ∃ j, j < i ∧ l !! j = Some d.

(** The units a run can still execute, at most. *)
Definition unitsLeft (w : World) : nat :=
  2 * countState BLOCKED (heap w) + sum_list_with weight (pending w).

(** * Properties *)

(** ** The arena under a change of state *)

Section heap_facts.
Implicit Types (h : Heap) (t u d : TaskId) (s : State).

Lemma graph_alter h t s : graph (alter (withState s) t h) = graph h.
Proof.
  unfold graph. revert t.
  induction h as [|tk h IH]; intros [|t]; simpl; try done.
  f_equal. apply IH.
Qed.

Lemma length_alter_state h t s : length (alter (withState s) t h) = length h.
Proof. apply length_alter. Qed.

Lemma getState_alter_ne h t u s :
  u ≠ t → getState (alter (withState s) t h) u = getState h u.
Proof. intros Hne. unfold getState. by rewrite list_lookup_alter_ne. Qed.

Lemma getState_alter_eq h t s :
  is_Some (h !! t) → getState (alter (withState s) t h) t = Some s.
Proof.
  intros [tk Htk]. unfold getState.
  by rewrite list_lookup_alter_eq, Htk.
Qed.

Lemma getState_alter h t u s :
  getState (alter (withState s) t h) u =
    if decide (u = t) then (λ _, s) <$> getState h u else getState h u.
Proof.
  case_decide as Hu.
  - subst u. unfold getState. rewrite list_lookup_alter_eq.
    by destruct (h !! t).
  - by apply getState_alter_ne.
Qed.

Lemma getState_is_Some h t : is_Some (getState h t) ↔ t < length h.
Proof. unfold getState. rewrite fmap_is_Some. apply lookup_lt_is_Some. Qed.

Lemma getState_lookup h t s : getState h t = Some s → is_Some (h !! t).
Proof. unfold getState. destruct (h !! t); naive_solver. Qed.

Lemma getDependencies_graph h t : getDependencies h t = graph h !! t.
Proof. unfold getDependencies, graph. by rewrite list_lookup_fmap. Qed.

Lemma depends_alter h t s a b :
  depends (alter (withState s) t h) a b ↔ depends h a b.
Proof. unfold depends. by rewrite graph_alter. Qed.

Lemma depends_graph h h' a b : graph h = graph h' → depends h a b → depends h' a b.
Proof. unfold depends. by intros ->. Qed.

Lemma tc_depends_graph h h' a b :
  graph h = graph h' → tc (depends h) a b → tc (depends h') a b.
Proof.
  intros Hg. induction 1 as [a b Hab|a b c Hab _ IH].
  - apply tc_once. by eapply depends_graph.
  - eapply tc_l; [by eapply depends_graph|done].
Qed.

Lemma rtc_depends_graph h h' a b :
  graph h = graph h' → rtc (depends h) a b → rtc (depends h') a b.
Proof.
  intros Hg. apply rtc_subrel. intros ??. by apply depends_graph.
Qed.

Lemma graph_length h h' : graph h = graph h' → length h = length h'.
Proof.
  unfold graph. intros Hg.
  by rewrite <-(length_fmap _dependencies h), Hg, length_fmap.
Qed.

Lemma ptrs_valid_depends h t d : ptrs_valid h → depends h t d → d < length h.
Proof.
  unfold ptrs_valid, depends, graph. intros Hv (ds & Hds & Hd).
  rewrite list_lookup_fmap in Hds.
  destruct (h !! t) as [tk|] eqn:Htk; simplify_eq/=.
  rewrite Forall_forall in Hv.
  specialize (Hv tk (list_elem_of_lookup_2 _ _ _ Htk)).
  rewrite Forall_forall in Hv. by apply Hv.
Qed.

Lemma depends_source_valid h t d : depends h t d → t < length h.
Proof.
  unfold depends, graph. intros (ds & Hds & _).
  apply lookup_lt_Some in Hds. by rewrite length_fmap in Hds.
Qed.

Lemma ptrs_valid_graph h h' : graph h = graph h' → ptrs_valid h → ptrs_valid h'.
Proof.
  intros Hg Hv. unfold ptrs_valid in *.
  rewrite <-(graph_length _ _ Hg).
  assert (Forall (λ ds, Forall (λ d, d < length h) ds) (graph h')) as Hf.
  { rewrite <-Hg. unfold graph. by rewrite Forall_fmap. }
  unfold graph in Hf. by rewrite Forall_fmap in Hf.
Qed.

Lemma allBlocked_getState h t : allBlocked h → t < length h → getState h t = Some BLOCKED.
Proof.
  unfold allBlocked, getState. intros Hf Ht.
  apply lookup_lt_is_Some in Ht as [tk Htk]. rewrite Htk. simpl.
  rewrite Forall_forall in Hf.
  by rewrite (Hf tk (list_elem_of_lookup_2 _ _ _ Htk)).
Qed.

Lemma countState_allBlocked h s : allBlocked h → s ≠ BLOCKED → countState s h = 0.
Proof.
  unfold allBlocked, countState. induction 1 as [|tk h Htk _ IH]; intros Hs; [done|].
  rewrite filter_cons. case_decide; [congruence|]. by apply IH.
Qed.

(** Moving one task from state [s0] to state [s] *)
Lemma countState_alter h t s0 s s' :
  getState h t = Some s0 →
  countState s' (alter (withState s) t h) + (if decide (s' = s0) then 1 else 0)
  = countState s' h + (if decide (s' = s) then 1 else 0).
Proof.
  unfold countState, getState. revert t.
  induction h as [|tk h IH]; intros [|t] Ht; simplify_eq/=.
  - rewrite !filter_cons. simpl.
    repeat case_decide; simpl; try lia; congruence.
  - rewrite !filter_cons. specialize (IH t Ht).
    repeat case_decide; simpl in *; lia.
Qed.

Lemma countState_zero h s :
  countState s h = 0 ↔ ∀ t, getState h t ≠ Some s.
Proof.
  unfold countState, getState. split.
  - intros Hc t Ht. destruct (h !! t) as [tk|] eqn:Htk; simplify_eq/=.
    apply list_elem_of_lookup_2 in Htk.
    assert (tk ∈ filter (λ tk0, _state tk0 = _state tk) h) as Hin
      by (by apply list_elem_of_filter).
    destruct (filter _ h); [by apply elem_of_nil in Hin|done].
  - intros Hn. destruct (filter _ h) as [|tk l] eqn:Hf; [done|].
    assert (tk ∈ filter (λ tk0, _state tk0 = s) h) as Hin
      by (rewrite Hf; left).
    apply list_elem_of_filter in Hin as [Hs Hin].
    apply list_elem_of_lookup_1 in Hin as [t Ht].
    destruct (Hn t). by rewrite Ht; simpl; f_equal.
Qed.
End heap_facts.

(** ** What the readiness traversal finds *)

Section readiness.
Variable h : Heap.
Implicit Types (t u d : TaskId) (acc : Found) (new : TaskList).

Lemma depends_lookup t tk d :
  h !! t = Some tk → depends h t d ↔ d ∈ _dependencies tk.
Proof.
  intros Htk. unfold depends, graph. rewrite list_lookup_fmap, Htk. simpl.
  naive_solver.
Qed.

Lemma depsDone_lookup t tk :
  h !! t = Some tk →
  depsDone h t ↔ ∀ d, d ∈ _dependencies tk → getState h d = Some DONE.
Proof.
  intros Htk. unfold depsDone. split; intros H d Hd; apply H.
  - by apply (depends_lookup t tk).
  - by apply (depends_lookup t tk) in Hd.
Qed.

Lemma visit_ok_nil acc : visit_ok h [] acc acc [].
Proof.
  split; try done.
  - by rewrite app_nil_r.
  - constructor.
  - intros u Hu. by apply elem_of_nil in Hu.
  - intros s Hs. by apply elem_of_nil in Hs.
Qed.

Lemma visit_ok_skip d acc :
  (getState h d = Some BLOCKED → d ∈ acc.2) → visit_ok h [d] acc acc [].
Proof.
  intros Hd. split; try done.
  - by rewrite app_nil_r.
  - constructor.
  - intros u Hu. by apply elem_of_nil in Hu.
  - intros s Hs%list_elem_of_singleton. by subst s.
Qed.

Lemma visit_ok_seq s1 s2 a b c n1 n2 :
  visit_ok h s1 a b n1 → visit_ok h s2 b c n2 →
  visit_ok h (s1 ++ s2) a c (n1 ++ n2).
Proof.
  intros [R1 M1 D1 N1 B1 P1 I1 C1 S1] [R2 M2 D2 N2 B2 P2 I2 C2 S2].
  split.
  - by rewrite R2, R1, (assoc_L (++)).
  - set_solver.
  - apply NoDup_app. split_and!; [done| |done].
    intros u Hu1 Hu2. apply N1 in Hu1. apply N2 in Hu2. tauto.
  - intros u [Hu|Hu]%elem_of_app.
    + apply N1 in Hu. set_solver.
    + apply N2 in Hu. set_solver.
  - intros u Hc Ha. destruct (decide (u ∈ b.2)); eauto.
  - intros u Hc Ha. destruct (decide (u ∈ b.2)) as [Hb|Hb].
    + destruct (P1 u Hb Ha) as (s & ? & ? & ?). exists s. set_solver.
    + destruct (P2 u Hc Hb) as (s & ? & ? & ?). exists s. set_solver.
  - intros u Hc Ha. rewrite elem_of_app.
    destruct (decide (u ∈ b.2)) as [Hb|Hb].
    + rewrite <-(I1 u Hb Ha). split; [|tauto].
      intros [?|Hu]; [done|]. apply N2 in Hu. tauto.
    + rewrite <-(I2 u Hc Hb). split; [|tauto].
      intros [Hu|?]; [|done]. apply N1 in Hu. tauto.
  - intros u d Hc Ha Hd. destruct (decide (u ∈ b.2)) as [Hb|Hb]; [|eauto].
    apply M2. eauto.
  - intros s [Hs|Hs]%elem_of_app Hbl; [apply M2|]; eauto.
Qed.

Lemma depsLoop_ok rec deps ready acc r :
  (∀ d a a', rec d a = Some a' → ∃ new, visit_ok h [d] a a' new) →
  depsLoop rec h deps ready acc = Some r →
  (∃ new, visit_ok h deps acc r.2 new) ∧
  (r.1 = true ↔ ready = true ∧ ∀ d, d ∈ deps → getState h d = Some DONE).
Proof.
  intros Hrec. revert ready acc.
  induction deps as [|d deps IH]; intros ready acc Hloop; simpl in Hloop.
  - simplify_eq/=. split; [eexists; apply visit_ok_nil|].
    split; [|tauto]. intros ->. split; [done|].
    intros d Hd. by apply elem_of_nil in Hd.
  - destruct (getState h d) as [[]|] eqn:Hd; [| | |done].
    + destruct (rec d acc) as [acc1|] eqn:Hcall; [|done].
      apply Hrec in Hcall as [n1 Hn1].
      apply IH in Hloop as [[n2 Hn2] Hflag]. split.
      * exists (n1 ++ n2). by apply (visit_ok_seq [d] deps _ acc1).
      * rewrite Hflag. split; [by intros [? _]|].
        intros [_ Hall]. specialize (Hall d (list_elem_of_here _ _)).
        congruence.
    + apply IH in Hloop as [[n2 Hn2] Hflag]. split.
      * exists ([] ++ n2). apply (visit_ok_seq [d] deps _ acc); [|done].
        apply visit_ok_skip. congruence.
      * rewrite Hflag. split; [by intros [? _]|].
        intros [_ Hall]. specialize (Hall d (list_elem_of_here _ _)).
        congruence.
    + apply IH in Hloop as [[n2 Hn2] Hflag]. split.
      * exists ([] ++ n2). apply (visit_ok_seq [d] deps _ acc); [|done].
        apply visit_ok_skip. congruence.
      * rewrite Hflag. split.
        -- intros [-> Hall]. split; [done|].
           intros d' [->|Hd']%elem_of_cons; auto.
        -- intros [-> Hall]. split; [done|].
           intros d' Hd'. apply Hall. by right.
Qed.

Lemma getReadyTasks_ok fuel t acc acc' :
  getReadyTasks fuel h t acc = Some acc' → ∃ new, visit_ok h [t] acc acc' new.
Proof.
  revert t acc acc'. induction fuel as [|fuel IH]; intros t acc acc' Hg; [done|].
  simpl in Hg. destruct (h !! t) as [tk|] eqn:Htk; [|done].
  assert (getState h t = Some (_state tk)) as Hst
    by (unfold getState; by rewrite Htk).
  case_decide as Hbl; [|simplify_eq].
  2:{ exists []. apply visit_ok_skip. congruence. }
  case_decide as Hchk; simplify_eq.
  { exists []. by apply visit_ok_skip. }
  destruct (depsLoop _ _ _ _ _) as [[ready [readyTasks checked]]|] eqn:Hloop;
    [|done].
  apply depsLoop_ok in Hloop as [[newl Hl] Hflag]; [|by apply IH].
  assert (acc' = (if ready then readyTasks ++ [t] else readyTasks, checked))
    as -> by (by destruct ready; simplify_eq).
  clear Hg. destruct Hl as [R M D N B P I C S]. simpl in *.
  assert (t ∉ newl) as Htn by (intros Ht%N; set_solver).
  assert (∀ u, u ∈ checked → u ∉ acc.2 → u ≠ t → u ∉ {[t]} ∪ acc.2)
    as Hother by set_solver.
  exists (if ready then newl ++ [t] else newl). split; simpl.
  - rewrite R. destruct ready; [|done]. by rewrite (assoc_L (++)).
  - set_solver.
  - destruct ready; [|done]. apply NoDup_app. split_and!; [done| |].
    + intros u Hu Hu'%list_elem_of_singleton. by subst u.
    + apply NoDup_singleton.
  - assert (∀ u, u ∈ newl ++ [t] → u ∈ checked ∧ u ∉ acc.2) as Hn.
    { intros u [Hu|Hu%list_elem_of_singleton]%elem_of_app.
      - apply N in Hu. set_solver.
      - subst u. set_solver. }
    destruct ready; [done|].
    intros u Hu. apply Hn, elem_of_app. by left.
  - assert (∀ u, u ∈ checked → u ∉ acc.2 → getState h u = Some BLOCKED) as Hb.
    { intros u Hu Ha. destruct (decide (u = t)) as [->|]; [congruence|].
      auto. }
    done.
  - assert (∀ u, u ∈ checked → u ∉ acc.2 →
      ∃ s, s ∈ [t] ∧ getState h s = Some BLOCKED ∧ rtc (bdep h) s u) as Hp.
    { intros u Hu Ha. exists t. split; [left|]. split; [congruence|].
      destruct (decide (u = t)) as [->|Hne]; [done|].
      destruct (P u Hu (Hother u Hu Ha Hne)) as (d & Hd & Hdb & Hreach).
      eapply rtc_l; [|done]. split; [|done].
      by apply (depends_lookup t tk). }
    done.
  - assert (∀ u, u ∈ checked → u ∉ acc.2 →
      u ∈ (if ready then newl ++ [t] else newl) ↔ depsDone h u) as Hi.
    { intros u Hu Ha. destruct (decide (u = t)) as [->|Hne].
      - rewrite (depsDone_lookup t tk Htk).
        destruct ready.
        + split; [intros _; by apply Hflag|].
          intros _. apply elem_of_app. right. left.
        + split; [done|]. intros Hall.
          assert (false = true) by (apply Hflag; done). done.
      - rewrite <-(I u Hu (Hother u Hu Ha Hne)).
        destruct ready; [|done]. rewrite elem_of_app, list_elem_of_singleton.
        tauto. }
    done.
  - assert (∀ u d, u ∈ checked → u ∉ acc.2 → bdep h u d → d ∈ checked) as Hc.
    { intros u d Hu Ha Hd. destruct (decide (u = t)) as [->|Hne].
      - destruct Hd as [Hd Hdb]. apply S; [|done].
        by apply (depends_lookup t tk) in Hd.
      - eauto. }
    done.
  - assert (t ∈ checked) by set_solver.
    intros s Hs%list_elem_of_singleton _. subst s.
    done.
Qed.
End readiness.

(** ** The traversal ends, whatever the shape of the graph *)

Section fuel.
Variable h : Heap.
Implicit Types (t u d : TaskId) (acc : Found).

Lemma elem_of_arena t : t ∈ arena h ↔ t < length h.
Proof. unfold arena. rewrite elem_of_list_to_set, elem_of_seq. lia. Qed.

Lemma size_arena : size (arena h) = length h.
Proof.
  unfold arena. rewrite size_list_to_set by apply NoDup_seq.
  apply length_seq.
Qed.

Lemma unchecked_mono (c c' : gset nat) :
  c ⊆ c' → size (arena h ∖ c') ≤ size (arena h ∖ c).
Proof. intros Hc. apply subseteq_size. set_solver. Qed.

Lemma unchecked_insert t (c : gset nat) :
  t < length h → t ∉ c → size (arena h ∖ ({[t]} ∪ c)) < size (arena h ∖ c).
Proof.
  intros Ht Hc. apply subset_size. apply elem_of_arena in Ht. set_solver.
Qed.

Lemma depsLoop_total rec deps ready acc n :
  (∀ d a, d < length h → size (arena h ∖ a.2) < n → is_Some (rec d a)) →
  (∀ d a a', rec d a = Some a' → a.2 ⊆ a'.2) →
  Forall (λ d, d < length h) deps →
  size (arena h ∖ acc.2) < n →
  is_Some (depsLoop rec h deps ready acc).
Proof.
  intros Hrec Hmono Hdeps. revert ready acc.
  induction Hdeps as [|d deps Hd _ IH]; intros ready acc Hn; simpl; [done|].
  apply getState_is_Some in Hd as Hs. destruct Hs as [s Hs]. rewrite Hs.
  destruct s; [|by apply IH..].
  destruct (Hrec d acc Hd Hn) as [acc1 Hcall]. rewrite Hcall.
  apply IH. apply Hmono in Hcall.
  pose proof (unchecked_mono _ _ Hcall). lia.
Qed.

Lemma ptrs_valid_lookup t tk :
  ptrs_valid h → h !! t = Some tk →
  Forall (λ d, d < length h) (_dependencies tk).
Proof.
  unfold ptrs_valid. rewrite Forall_forall. intros Hv Htk.
  apply Hv. by eapply list_elem_of_lookup_2.
Qed.

Lemma getReadyTasks_enough fuel t acc :
  ptrs_valid h → t < length h → size (arena h ∖ acc.2) < fuel →
  is_Some (getReadyTasks fuel h t acc).
Proof.
  intros Hv. revert t acc.
  induction fuel as [|fuel IH]; intros t acc Ht Hn; [lia|].
  simpl. apply lookup_lt_is_Some in Ht as Hs. destruct Hs as [tk Htk].
  rewrite Htk. case_decide; [|done]. case_decide as Hchk; [done|].
  pose proof (unchecked_insert t acc.2 Ht Hchk) as Hlt.
  destruct (depsLoop_total (getReadyTasks fuel h) (_dependencies tk) true
              (acc.1, {[t]} ∪ acc.2) fuel) as [[ready [r c]] Hloop].
  - intros d a Hd Ha. by apply IH.
  - intros d a a' Hcall. apply getReadyTasks_ok in Hcall as [new Hok].
    apply Hok.
  - by apply (ptrs_valid_lookup t).
  - simpl. lia.
  - rewrite Hloop. by destruct ready.
Qed.

(** The fuel [pollTask] gives is enough. *)
Lemma getReadyTasks_enough_fuel root :
  ptrs_valid h → root < length h →
  is_Some (getReadyTasks (S (length h)) h root ([], ∅)).
Proof.
  intros Hv Hr. apply getReadyTasks_enough; [done..|]. simpl.
  rewrite <-size_arena.
  pose proof (unchecked_mono ∅ ∅). assert (size (arena h ∖ ∅) ≤ size (arena h)).
  { apply subseteq_size. set_solver. }
  lia.
Qed.

Lemma depsLoop_ext rec rec' deps ready acc r :
  (∀ d a a', rec d a = Some a' → rec' d a = Some a') →
  depsLoop rec h deps ready acc = Some r →
  depsLoop rec' h deps ready acc = Some r.
Proof.
  intros Hext. revert ready acc.
  induction deps as [|d deps IH]; intros ready acc Hloop; simpl in *; [done|].
  destruct (getState h d) as [[]|]; [|by apply IH..|done].
  destruct (rec d acc) as [acc1|] eqn:Hcall; [|done].
  rewrite (Hext _ _ _ Hcall). by apply IH.
Qed.

(** More fuel does not change a result. *)
Lemma getReadyTasks_fuel_mono fuel fuel' t acc acc' :
  fuel ≤ fuel' →
  getReadyTasks fuel h t acc = Some acc' →
  getReadyTasks fuel' h t acc = Some acc'.
Proof.
  revert fuel' t acc acc'.
  induction fuel as [|fuel IH]; intros [|fuel'] t acc acc' Hle Hg;
    [done|done|lia|].
  simpl in *. destruct (h !! t) as [tk|]; [|done].
  case_decide; [|done]. case_decide; [done|].
  destruct (depsLoop (getReadyTasks fuel h) _ _ _ _) as [r|] eqn:Hloop;
    [|done].
  erewrite depsLoop_ext; [done| |done].
  intros d a a'. apply IH. lia.
Qed.
End fuel.

(** ** One traversal from the root, with nothing checked yet *)

Section top_level.
Variable h : Heap.
Implicit Types (t u d root : TaskId).

Lemma getReadyTasks_top fuel root ready checked :
  getReadyTasks fuel h root ([], ∅) = Some (ready, checked) →
  NoDup ready ∧
  (∀ u, u ∈ checked ↔
        getState h root = Some BLOCKED ∧ rtc (bdep h) root u) ∧
  (∀ u, u ∈ ready ↔ u ∈ checked ∧ depsDone h u).
Proof.
  intros [new [R M D N B P I C S]]%getReadyTasks_ok. simpl in *. subst ready.
  split_and!; [done| |].
  - intros u. split.
    + intros Hu. destruct (P u Hu) as (s & Hs & Hb & Hreach); [set_solver|].
      apply list_elem_of_singleton in Hs. by subst s.
    + intros [Hb Hreach]. revert u Hreach. apply rtc_ind_r.
      * apply S; [left|done].
      * intros u v _ Huv IH. apply (C u v); [done|set_solver|done].
  - intros u. split.
    + intros Hu. destruct (N u Hu) as [Hc _]. split; [done|].
      apply I; [done|set_solver|done].
    + intros [Hc Hd]. apply I; [done|set_solver|done].
Qed.

Lemma bdep_depends t u : rtc (bdep h) t u → rtc (depends h) t u.
Proof. apply rtc_subrel. by intros ?? [? _]. Qed.

Lemma bdep_blocked t u :
  getState h t = Some BLOCKED → rtc (bdep h) t u → getState h u = Some BLOCKED.
Proof.
  intros Ht Hreach. revert u Hreach. apply rtc_ind_r; [done|].
  intros u v _ Huv _. apply Huv.
Qed.

(** What is in the ready list of a poll *)
Lemma ready_sound fuel root ready checked u :
  getReadyTasks fuel h root ([], ∅) = Some (ready, checked) →
  u ∈ ready →
  getState h u = Some BLOCKED ∧ depsDone h u ∧ rtc (depends h) root u.
Proof.
  intros (_ & Hc & Hr)%getReadyTasks_top Hu.
  apply Hr in Hu as [[Hb Hreach]%Hc Hd].
  split_and!; [by eapply bdep_blocked|done|by apply bdep_depends].
Qed.

Lemma ranked_depends t d : ranked h → depends h t d → t < d.
Proof.
  unfold ranked, depends, graph. rewrite Forall_forall.
  intros Hr (ds & Hds & Hd). rewrite list_lookup_fmap in Hds.
  destruct (h !! t) as [tk|] eqn:Htk; simplify_eq/=.
  assert ((t, tk) ∈ imap pair h) as Hin.
  { apply list_elem_of_lookup. exists t. by rewrite list_lookup_imap, Htk. }
  specialize (Hr _ Hin). rewrite Forall_forall in Hr. by apply Hr.
Qed.

Lemma ranked_acyclic : ranked h → acyclic h.
Proof.
  intros Hr t Ht.
  assert (∀ a b, tc (depends h) a b → a < b) as Hlt.
  { induction 1 as [a b Hab|a b c Hab _ IH].
    - by apply ranked_depends.
    - apply ranked_depends in Hab; [lia|done]. }
  specialize (Hlt t t Ht). lia.
Qed.

Lemma depends_sn t : acyclic h → ptrs_valid h → sn (depends h) t.
Proof.
  intros Hac Hv. apply tc_finite_sn; [exact Hac|].
  exists (seq 0 (length h)). intros u Hu. apply elem_of_seq.
  split; [lia|]. simpl.
  induction Hu as [a b Hab|a b c _ _ IH]; [|done].
  by eapply ptrs_valid_depends.
Qed.

(** In an acyclic graph a poll that finds the root blocked and nothing
    running finds something to start. *)
Lemma ready_or_running fuel root ready checked :
  acyclic h → ptrs_valid h →
  getReadyTasks fuel h root ([], ∅) = Some (ready, checked) →
  getState h root = Some BLOCKED →
  (∃ u, u ∈ ready) ∨ (∃ u, getState h u = Some RUNNING).
Proof.
  intros Hac Hv [new [R M D N B P I C S]]%getReadyTasks_ok Hroot.
  simpl in *. subst ready.
  assert (root ∈ checked) as Hin by (apply S; [left|done]).
  revert Hin. generalize root. clear Hroot S P root.
  intros u. induction (depends_sn u Hac Hv) as [u _ IH]. intros Hu.
  assert (getState h u = Some BLOCKED) as Hb by (apply B; set_solver).
  destruct (getState_lookup _ _ _ Hb) as [tk Htk].
  destruct (decide (Forall (λ d, getState h d = Some DONE) (_dependencies tk)))
    as [Hall|Hex].
  - left. exists u. apply I; [done|set_solver|].
    apply (depsDone_lookup h u tk Htk). by apply Forall_forall.
  - apply not_Forall_Exists in Hex; [|apply _].
    apply Exists_exists in Hex as (d & Hd & Hnd).
    assert (depends h u d) as Hdep by (by apply (depends_lookup h u tk)).
    assert (d < length h) as Hlt by (by eapply ptrs_valid_depends).
    apply getState_is_Some in Hlt as [[] Hs]; [|eauto|done].
    apply (IH d); [done|].
    apply (C u d); [done|set_solver|done].
Qed.
End top_level.

(** ** Dispatch *)

Section dispatch.
Implicit Types (t u : TaskId) (l : list TaskId) (w : World).

Lemma wrap32_succ n : wrap32 (wrap32 n + 1) = wrap32 (n + 1).
Proof. unfold wrap32. by rewrite Zplus_mod_idemp_l. Qed.

Lemma wrap32_pred n : wrap32 (wrap32 n - 1) = wrap32 (n - 1).
Proof. unfold wrap32. by rewrite Zminus_mod_idemp_l. Qed.

Lemma wrap32_small n : (0 ≤ n < 2 ^ 32)%Z → wrap32 n = n.
Proof. unfold wrap32. intros Hn. by apply Z.mod_small. Qed.

Lemma internalRunTask_Some t w w' :
  internalRunTask t w = Some w' →
  getState (heap w) t = Some BLOCKED ∧
  w' = noteDispatched t
         (execute (_executor (runner w)) (BodyUnit t) (setTaskRunning t w)).
Proof.
  unfold internalRunTask. destruct (getState (heap w) t) as [[]|]; naive_solver.
Qed.

Lemma internalRunTasks_started l w w' :
  internalRunTasks l w = Some w' → started l w w'.
Proof.
  revert w. induction l as [|t l IH]; intros w Hrun; simpl in Hrun.
  - simplify_eq. split; try done.
    + constructor.
    + intros t Ht. by apply elem_of_nil in Ht.
    + intros n ->. simpl. f_equal. lia.
    + simpl. by rewrite app_nil_r.
    + by rewrite app_nil_r.
  - destruct (internalRunTask t w) as [w1|] eqn:H1; [|done].
    apply internalRunTask_Some in H1 as [Hb ->].
    apply IH in Hrun as [D B S G CR CB E CN CX P DP R CBK]. simpl in *.
    assert (t ∉ l) as Htl.
    { intros Ht. specialize (B t Ht). unfold setRunning in B.
      rewrite getState_alter_eq in B by by eapply getState_lookup. done. }
    split; simpl.
    + by constructor.
    + intros u [->|Hu]%elem_of_cons; [done|].
      specialize (B u Hu). unfold setRunning in B.
      rewrite getState_alter_ne in B; [done|]. by intros ->.
    + intros u. rewrite S. unfold setRunning. rewrite getState_alter.
      destruct (decide (u = t)) as [->|Hne].
      * rewrite Hb. simpl. destruct (decide (t ∈ t :: l)) as [_|Hn].
        -- by case_decide.
        -- destruct Hn. left.
      * destruct (decide (u ∈ l)) as [Hu|Hu];
          destruct (decide (u ∈ u :: l)) as [_|Hn];
          destruct (decide (u ∈ t :: l)) as [Hu'|Hu']; try done.
        -- destruct Hu'. by right.
        -- destruct Hu'. by right.
        -- apply elem_of_cons in Hu' as [?|?]; done.
        -- apply elem_of_cons in Hu' as [?|?]; done.
    + rewrite G. apply graph_alter.
    + rewrite CR. pose proof (countState_alter _ _ _ RUNNING RUNNING Hb) as Hc.
      unfold setRunning. repeat case_decide; try done. lia.
    + pose proof (countState_alter _ _ _ RUNNING BLOCKED Hb) as Hc.
      unfold setRunning in CB. repeat case_decide; try done. lia.
    + done.
    + intros n Hn. rewrite (CN (n + 1)%Z).
      * f_equal. lia.
      * rewrite Hn. apply wrap32_succ.
    + done.
    + rewrite P. by rewrite <-(assoc_L (++)).
    + rewrite DP. by rewrite <-(assoc_L (++)).
    + done.
    + done.
Qed.

Lemma internalRunTasks_total l w :
  NoDup l → (∀ t, t ∈ l → getState (heap w) t = Some BLOCKED) →
  is_Some (internalRunTasks l w).
Proof.
  intros Hnd. revert w. induction Hnd as [|t l Htl _ IH]; intros w Hb; [done|].
  simpl. unfold internalRunTask. rewrite (Hb t) by left.
  apply IH. intros u Hu. simpl. unfold setRunning.
  rewrite getState_alter_ne; [apply Hb; by right|]. by intros ->.
Qed.

Lemma internalRunTasks_app l1 l2 w w' :
  internalRunTasks (l1 ++ l2) w = Some w' →
  ∃ w1, internalRunTasks l1 w = Some w1 ∧ internalRunTasks l2 w1 = Some w'.
Proof.
  revert w. induction l1 as [|t l1 IH]; intros w Hrun; simpl in *; [eauto|].
  destruct (internalRunTask t w); [|done]. by apply IH.
Qed.

(** Dependencies that are done stay done while the ready tasks start. *)
Lemma started_depsDone l w w' t :
  started l w w' → depsDone (heap w) t → depsDone (heap w') t.
Proof.
  intros Hs Hd d Hdep. rewrite (st_state _ _ _ Hs).
  assert (getState (heap w) d = Some DONE) as Hdone.
  { apply Hd. eapply depends_graph; [|done]. apply Hs. }
  case_decide as Hin; [|done].
  apply (st_blocked _ _ _ Hs) in Hin. congruence.
Qed.

Lemma started_moves l w w' t :
  started l w w' → moves (getState (heap w) t) (getState (heap w') t).
Proof.
  intros Hs. rewrite (st_state _ _ _ Hs). case_decide as Hin; [|by left].
  right. left. split; [|done]. by apply Hs.
Qed.

Lemma tokens_bodies e l : tokens ((λ t, (e, BodyUnit t)) <$> l) = l.
Proof.
  unfold tokens. induction l as [|t l IH]; [done|].
  rewrite fmap_cons. simpl. f_equal. apply IH.
Qed.

Lemma tokens_app p1 p2 : tokens (p1 ++ p2) = tokens p1 ++ tokens p2.
Proof. apply omap_app. Qed.

Lemma tokens_poll e p : tokens ((e, PollUnit) :: p) = tokens p.
Proof. done. Qed.

Lemma tokens_body e t p : tokens ((e, BodyUnit t) :: p) = t :: tokens p.
Proof. done. Qed.

Lemma tokens_done e t p : tokens ((e, DoneUnit t) :: p) = t :: tokens p.
Proof. done. Qed.

Lemma elem_of_tokens t p :
  t ∈ tokens p ↔ ∃ e, (e, BodyUnit t) ∈ p ∨ (e, DoneUnit t) ∈ p.
Proof.
  unfold tokens. rewrite list_elem_of_omap. split.
  - intros ([e u] & Hin & Ht). unfold token in Ht.
    destruct u; simplify_eq/=; eauto.
  - intros [e [He|He]]; eexists; (split; [exact He|done]).
Qed.

Lemma weight_bodies e l :
  sum_list_with weight ((λ t, (e, BodyUnit t)) <$> l) = 2 * length l.
Proof. induction l as [|t l IH]; [done|]. rewrite fmap_cons. simpl in *. lia. Qed.

Lemma started_measure l w w' : started l w w' → measure w' + length l = measure w.
Proof.
  intros Hs. unfold measure. rewrite (st_pending _ _ _ Hs).
  rewrite sum_list_with_app, weight_bodies.
  pose proof (st_blocked_count _ _ _ Hs). lia.
Qed.
End dispatch.

(** ** Polls *)

Lemma getReadyTasks_S fuel (h : Heap) (task : TaskId) (acc : Found) :
  getReadyTasks (S fuel) h task acc =
    match h !! task with
    | None => None
    | Some tk =>
        if decide (_state tk = BLOCKED) then
          if decide (task ∈ acc.2) then Some acc
          else
            match depsLoop (getReadyTasks fuel h) h (_dependencies tk) true
                    (acc.1, {[task]} ∪ acc.2) with
            | None => None
            | Some (ready, (readyTasks, checked)) =>
                if ready then Some (readyTasks ++ [task], checked)
                else Some (readyTasks, checked)
            end
        else Some acc
    end.
Proof. done. Qed.

#[global] Arguments getReadyTasks : simpl never.

Section polls.
Implicit Types (t u : TaskId) (e : ExecutorId) (w : World).

Lemma pollTask_cases e w w' :
  pollTask e w = Some w' →
  (_done (context w) = true ∧ w' = w) ∨
  (_done (context w) = false ∧
   getState (heap w) (_rootTask (context w)) = Some DONE ∧
   w' = Context_setDone e w) ∨
  (_done (context w) = false ∧
   (getState (heap w) (_rootTask (context w)) = Some BLOCKED ∨
    getState (heap w) (_rootTask (context w)) = Some RUNNING) ∧
   ∃ ready checked,
     getReadyTasks (S (length (heap w))) (heap w) (_rootTask (context w))
       ([], ∅) = Some (ready, checked) ∧
     started ready w w').
Proof.
  unfold pollTask. destruct (_done (context w)); [naive_solver|].
  destruct (getState (heap w) (_rootTask (context w))) as [s|] eqn:Hs;
    [|done].
  intros Hp. right.
  destruct s; [right|right|left; naive_solver].
  all: destruct (getReadyTasks _ _ _ _) as [[ready checked]|] eqn:Hg;
    [|done].
  all: apply internalRunTasks_started in Hp; eauto 10.
Qed.

Lemma pollTask_measure e w w' : pollTask e w = Some w' → measure w' ≤ measure w.
Proof.
  intros [[_ ->]|[(_ & _ & ->)|(_ & _ & ready & checked & _ & Hs)]]%pollTask_cases.
  - done.
  - done.
  - apply started_measure in Hs. lia.
Qed.

Lemma pollTask_moves e w w' t :
  pollTask e w = Some w' → moves (getState (heap w) t) (getState (heap w') t).
Proof.
  intros [[_ ->]|[(_ & _ & ->)|(_ & _ & ready & checked & _ & Hs)]]%pollTask_cases.
  - by left.
  - by left.
  - by eapply started_moves.
Qed.

(** A poll only starts tasks whose dependencies are all done. *)
Lemma pollTask_started_depsDone e w w' t :
  pollTask e w = Some w' →
  getState (heap w) t = Some BLOCKED → getState (heap w') t = Some RUNNING →
  depsDone (heap w) t ∧ depsDone (heap w') t.
Proof.
  intros [[_ ->]|[(_ & _ & ->)|(_ & _ & ready & checked & Hg & Hs)]]%pollTask_cases
    Hb Hr; [congruence|simpl in Hr; congruence|].
  rewrite (st_state _ _ _ Hs) in Hr. case_decide as Hin; [|congruence].
  destruct (ready_sound _ _ _ _ _ _ Hg Hin) as (_ & Hd & _).
  split; [done|]. by eapply started_depsDone.
Qed.
End polls.

(** ** What a run keeps true *)

Section invariant.
Variables (h0 : Heap) (ex ce : ExecutorId) (root : TaskId).
Hypothesis Hvalid : ptrs_valid h0.
Hypothesis Hroot : root < length h0.
Implicit Types (t u : TaskId) (e : ExecutorId) (w : World).

Local Abbreviation Inv := (Inv h0 ex ce root).
Local Abbreviation init := (runTask (TaskRunner_new ex) h0 root ce).

Lemma Inv_init : allBlocked h0 → Inv init.
Proof.
  intros Hf.
  assert (∀ t s, getState h0 t = Some s → s = BLOCKED) as Hb.
  { intros t s Hs. assert (t < length h0) as Ht
      by (apply getState_is_Some; eauto).
    rewrite (allBlocked_getState h0 t Hf Ht) in Hs. congruence. }
  split; simpl; try done.
  - constructor.
  - intros t. split; [by intros ?%elem_of_nil|]. by intros ?%Hb.
  - by rewrite countState_allBlocked.
  - intros t [?%Hb|?%Hb]; done.
  - constructor.
  - intros t. split; [by intros ?%elem_of_nil|]. by intros [?%Hb|?%Hb].
  - constructor.
  - intros t. split; [by intros ?%elem_of_nil|].
    intros [?%Hb|[e He]]; [done|]. set_solver.
  - intros e u He. assert (u = PollUnit ∧ e = ce) as [-> ->] by set_solver.
    done.
  - intros e t He. by apply elem_of_nil in He.
  - intros t [?%Hb|?%Hb]; done.
Qed.

Lemma Inv_length w : Inv w → length (heap w) = length h0.
Proof. intros HI. apply graph_length, HI. Qed.

Lemma Inv_ptrs_valid w : Inv w → ptrs_valid (heap w).
Proof.
  intros HI. eapply ptrs_valid_graph; [|exact Hvalid]. symmetry. apply HI.
Qed.

(** The context executor takes the poll unit out of its queue. *)
Lemma Inv_take_poll w p1 e p2 :
  Inv w → pending w = p1 ++ (e, PollUnit) :: p2 →
  e = ce ∧ Inv (withPending (p1 ++ p2) w).
Proof.
  intros [G E R CE TN T CN D DN DP RN RA CB DO TG RT TO] Hp.
  rewrite Hp in *. rewrite tokens_app, tokens_poll, <-tokens_app in *.
  split; [apply (TG e PollUnit); set_solver|].
  split; simpl; try done.
  - intros t. rewrite RA. set_solver.
  - intros e' u Hu. apply TG. set_solver.
Qed.

(** A worker takes a body out of its queue and runs it. *)
Lemma Inv_body w p1 e t p2 :
  Inv w → pending w = p1 ++ (e, BodyUnit t) :: p2 →
  e = ex ∧ Inv (runBody e t (withPending (p1 ++ p2) w)).
Proof.
  intros [G E R CE TN T CN D DN DP RN RA CB DO TG RT TO] Hp.
  rewrite Hp in *. rewrite tokens_app, tokens_body in *.
  assert (e = ex) as -> by (apply (TG e (BodyUnit t)); set_solver).
  split; [done|].
  assert (getState (heap w) t = Some RUNNING) as Hrun by (apply T; set_solver).
  assert (t ∉ (ran w).*2) as Hnr.
  { rewrite RA. intros [?|[e He]]; [congruence|].
    apply NoDup_app in TN as (N1 & N12 & N2). apply NoDup_cons in N2 as [N2 _].
    assert (t ∈ tokens p1 ∨ t ∈ tokens p2) as [H1|H2].
    { apply elem_of_app in He as [He|He]; [left|right].
      - apply elem_of_tokens. eauto.
      - apply elem_of_cons in He as [?|He]; [done|].
        apply elem_of_tokens. eauto. }
    - apply N12 in H1. set_solver.
    - done. }
  split; simpl; try done.
  - rewrite !tokens_app, tokens_done. simpl.
    eapply NoDup_Permutation_proper; [|exact TN].
    rewrite <-(assoc_L (++)). f_equiv. symmetry. apply Permutation_cons_append.
  - intros u. rewrite <-T, !tokens_app, tokens_done. set_solver.
  - rewrite fmap_app. simpl. apply NoDup_app. split_and!; [done| |].
    + intros u Hu Hu'%list_elem_of_singleton. by subst u.
    + apply NoDup_singleton.
  - intros u. rewrite fmap_app, elem_of_app, RA. simpl.
    rewrite list_elem_of_singleton. split.
    + intros [[?|[e He]]| ->]; [by left|right; exists e; set_solver|].
      right. exists ce. rewrite CE. set_solver.
    + intros [?|[e He]]; [left; by left|].
      assert (u = t ∨ (e, DoneUnit u) ∈ p1 ++ (ex, BodyUnit t) :: p2)
        as [->|?] by set_solver; [by right|].
      left. right. by exists e.
  - intros e u Hu. rewrite CE in Hu.
    assert ((e, u) = (ce, DoneUnit t) ∨ (e, u) ∈ p1 ++ (ex, BodyUnit t) :: p2)
      as [?|?] by set_solver; [by simplify_eq|]. by apply TG.
  - intros e u Hu. apply elem_of_app in Hu as [?|Hu%list_elem_of_singleton];
      [by eapply RT|]. by simplify_eq.
Qed.

(** The context executor takes a done unit out of its queue; the world
    after [task.setDone()] and [--_runningTasks], before the poll. *)
Lemma Inv_complete w p1 e t p2 :
  Inv w → pending w = p1 ++ (e, DoneUnit t) :: p2 →
  e = ce ∧ getState (heap w) t = Some RUNNING ∧
  Inv (mkWorld (setDone t (heap w))
         (mkTaskRunner (_executor (runner w))
                       (wrap32 (_runningTasks (runner w) - 1)))
         (context w) (p1 ++ p2) (dispatched w) (ran w) (callbacks w)).
Proof.
  intros [G E R CE TN T CN D DN DP RN RA CB DO TG RT TO] Hp.
  rewrite Hp in *. rewrite tokens_app, tokens_done in *.
  assert (e = ce) as -> by (apply (TG e (DoneUnit t)); set_solver).
  assert (getState (heap w) t = Some RUNNING) as Hrun by (apply T; set_solver).
  destruct (getState_lookup _ _ _ Hrun) as [tk Htk].
  split; [done|]. split; [done|].
  assert (∀ u, getState (setDone t (heap w)) u = Some DONE ↔
               u = t ∨ getState (heap w) u = Some DONE) as HD.
  { intros u. unfold setDone. rewrite getState_alter. case_decide as Hu.
    - subst u. rewrite Hrun. naive_solver.
    - naive_solver. }
  assert (∀ u, getState (setDone t (heap w)) u = Some RUNNING ↔
               u ≠ t ∧ getState (heap w) u = Some RUNNING) as HR.
  { intros u. unfold setDone. rewrite getState_alter. case_decide as Hu.
    - subst u. rewrite Hrun. naive_solver.
    - naive_solver. }
  apply NoDup_app in TN as (N1 & N12 & [Nt N2]%NoDup_cons).
  assert (∀ u, depsDone (heap w) u → depsDone (setDone t (heap w)) u) as Hdd.
  { intros u Hu d Hd. apply HD. right. apply Hu.
    by apply depends_alter in Hd. }
  split; simpl.
  - unfold setDone. by rewrite graph_alter.
  - done.
  - done.
  - done.
  - rewrite tokens_app. apply NoDup_app. split_and!; [done| |done].
    intros u Hu. specialize (N12 u Hu). set_solver.
  - intros u. rewrite HR, <-T, tokens_app.
    specialize (N12 u). set_solver.
  - rewrite CN, wrap32_pred. f_equal.
    pose proof (countState_alter (heap w) t RUNNING DONE RUNNING Hrun) as Hc.
    unfold setDone. repeat case_decide; try done. lia.
  - intros u [[_ Hu]%HR|[->|Hu]%HD]; apply Hdd, D; eauto.
  - done.
  - intros u. rewrite DP, HR, HD. destruct (decide (u = t)); naive_solver.
  - done.
  - intros u. rewrite RA, HD. split.
    + intros [?|[e He]]; [by left; right|].
      assert (u = t ∨ (e, DoneUnit u) ∈ p1 ++ p2) as [?|?] by set_solver;
        [by left; left|right; eauto].
    + intros [[->|?]|[e He]]; [right; exists ce; set_solver|by left|].
      right. exists e. set_solver.
  - done.
  - intros Hd. apply HD. right. by apply DO.
  - intros e u Hu. apply TG. set_solver.
  - done.
  - intros u [[_ Hu]%HR|[->|Hu]%HD]; apply TO; eauto.
Qed.

(** The ready tasks of a poll start. *)
Lemma Inv_started w w' ready checked :
  Inv w → _done (context w) = false →
  getReadyTasks (S (length (heap w))) (heap w) root ([], ∅)
    = Some (ready, checked) →
  started ready w w' → Inv w'.
Proof.
  intros [G E R CE TN T CN D DN DP RN RA CB DO TG RT TO] Hnd Hg
    [SN SB SS SG SR SBC SE SC SX SP SD SRA SCB].
  assert (∀ u, u ∈ ready →
    depsDone (heap w) u ∧ rtc (depends h0) root u) as Hready.
  { intros u Hu. destruct (ready_sound _ _ _ _ _ _ Hg Hu) as (_ & ? & ?).
    split; [done|]. by eapply rtc_depends_graph. }
  assert (∀ u, getState (heap w') u = Some RUNNING ↔
               u ∈ ready ∨ getState (heap w) u = Some RUNNING) as HR.
  { intros u. rewrite SS. case_decide as Hu; [naive_solver|].
    naive_solver. }
  assert (∀ u, getState (heap w') u = Some DONE ↔
               getState (heap w) u = Some DONE) as HD.
  { intros u. rewrite SS. case_decide as Hu; [|done].
    apply SB in Hu. rewrite Hu. naive_solver. }
  assert (∀ u, depsDone (heap w) u → depsDone (heap w') u) as Hdd.
  { intros u Hu d Hd. apply HD, Hu. eapply depends_graph; [|done]. done. }
  split.
  - by rewrite SG.
  - by rewrite SE.
  - by rewrite SX.
  - by rewrite SX.
  - rewrite SP, tokens_app, tokens_bodies. apply NoDup_app.
    split_and!; [done| |done].
    intros u Hu%T Hu'%SB. congruence.
  - intros u. rewrite SP, tokens_app, tokens_bodies, elem_of_app, HR, T.
    tauto.
  - rewrite (SC _ CN), SR. f_equal. lia.
  - intros u [[Hu|Hu]%HR|Hu%HD]; apply Hdd.
    + by apply Hready.
    + apply D. by left.
    + apply D. by right.
  - rewrite SD. apply NoDup_app. split_and!; [done| |done].
    intros u Hu%DP Hu'%SB. destruct Hu; congruence.
  - intros u. rewrite SD, elem_of_app, DP, HR, HD. tauto.
  - by rewrite SRA.
  - intros u. rewrite SRA, RA, HD, SP. split.
    + intros [?|[e He]]; [by left|]. right. exists e. set_solver.
    + intros [?|[e He]]; [by left|]. right. exists e.
      apply elem_of_app in He as [?|He]; [done|].
      apply list_elem_of_fmap in He as (? & ? & ?). done.
  - by rewrite SCB, SX.
  - rewrite SX. congruence.
  - intros e u. rewrite SP. intros [?|He]%elem_of_app; [by apply TG|].
    apply list_elem_of_fmap in He as (? & ? & ?). by simplify_eq.
  - by rewrite SRA.
  - intros u [[Hu|Hu]%HR|Hu%HD].
    + by apply Hready.
    + apply TO. by left.
    + apply TO. by right.
Qed.

Lemma Inv_setDone w :
  Inv w → _done (context w) = false →
  getState (heap w) root = Some DONE → Inv (Context_setDone ce w).
Proof.
  intros [G E R CE TN T CN D DN DP RN RA CB DO TG RT TO] Hnd Hr.
  split; simpl; try done. by rewrite CB, Hnd.
Qed.

Lemma pollTask_total e w : Inv w → is_Some (pollTask e w).
Proof.
  intros HI. unfold pollTask. destruct (_done (context w)); [done|].
  rewrite (inv_root _ _ _ _ _ HI).
  assert (root < length (heap w)) as Hr by by rewrite (Inv_length w HI).
  apply getState_is_Some in Hr as Hs. destruct Hs as [s Hs]. rewrite Hs.
  destruct (getReadyTasks_enough_fuel (heap w) root (Inv_ptrs_valid w HI) Hr)
    as [[ready checked] Hg].
  rewrite Hg.
  assert (is_Some (internalRunTasks ready w)) as Hrun.
  { apply internalRunTasks_total.
    - by apply getReadyTasks_top in Hg as (Hnd & _ & _).
    - intros t Ht. by destruct (ready_sound _ _ _ _ _ _ Hg Ht). }
  by destruct s.
Qed.

Lemma Inv_pollTask w w' : Inv w → pollTask ce w = Some w' → Inv w'.
Proof.
  intros HI Hp. pose proof (inv_root _ _ _ _ _ HI) as Hr.
  apply pollTask_cases in Hp
    as [[_ ->]|[(Hnd & Hd & ->)|(Hnd & _ & ready & checked & Hg & Hs)]].
  - done.
  - rewrite Hr in Hd. by apply Inv_setDone.
  - rewrite Hr in Hg. by eapply Inv_started.
Qed.

(** Every pending unit can run, and leaves a world of the same kind. *)
Lemma Inv_runUnit w p1 e (u : Unit) p2 :
  Inv w → pending w = p1 ++ (e, u) :: p2 →
  ∃ w', runUnit e u (withPending (p1 ++ p2) w) = Some w' ∧ Inv w'.
Proof.
  intros HI Hp. destruct u as [|t|t]; simpl.
  - destruct (Inv_take_poll w p1 e p2 HI Hp) as [-> HI'].
    destruct (pollTask_total ce _ HI') as [w' Hw']. exists w'.
    split; [done|]. by eapply Inv_pollTask.
  - destruct (Inv_body w p1 e t p2 HI Hp) as [-> HI']. eauto.
  - destruct (Inv_complete w p1 e t p2 HI Hp) as (-> & Hrun & HI').
    unfold setTaskDone. simpl.
    destruct (getState_lookup _ _ _ Hrun) as [tk ->].
    destruct (pollTask_total ce _ HI') as [w' Hw']. exists w'.
    split; [done|]. by eapply Inv_pollTask.
Qed.

Lemma Inv_step w w' : Inv w → step w w' → Inv w'.
Proof.
  intros HI (p1 & e & u & p2 & Hp & Hrun).
  destruct (Inv_runUnit w p1 e u p2 HI Hp) as (w'' & Hrun' & HI').
  congruence.
Qed.

Lemma Inv_reachable w : allBlocked h0 → rtc step init w → Inv w.
Proof.
  intros Hf Hsteps. revert w Hsteps. apply rtc_ind_r; [by apply Inv_init|].
  intros w w' _ Hstep HI. by eapply Inv_step.
Qed.

(** A world with a pending unit is not stuck. *)
Lemma Inv_progress w : Inv w → pending w ≠ [] → red step w.
Proof.
  intros HI Hne. destruct (pending w) as [|[e u] p] eqn:Hp; [done|].
  destruct (Inv_runUnit w [] e u p HI Hp) as (w' & Hrun & _).
  exists w', [], e, u, p. done.
Qed.
End invariant.

(** ** Runs *)

Section measure.
Implicit Types (t u : TaskId) (e : ExecutorId) (w : World).

Lemma measure_take w p1 e (u : Unit) p2 :
  pending w = p1 ++ (e, u) :: p2 →
  measure (withPending (p1 ++ p2) w) + weight (e, u) = measure w.
Proof.
  intros Hp. unfold measure. rewrite Hp. simpl.
  rewrite !sum_list_with_app. simpl. lia.
Qed.

Lemma step_measure w w' : step w w' → measure w' < measure w.
Proof.
  intros (p1 & e & u & p2 & Hp & Hrun).
  pose proof (measure_take w p1 e u p2 Hp) as Hm.
  destruct u as [|t|t]; simpl in Hrun.
  - apply pollTask_measure in Hrun. unfold weight in Hm. simpl in Hm. lia.
  - simplify_eq. unfold weight in Hm. simpl in Hm.
    unfold measure in *. simpl in *. rewrite sum_list_with_app. simpl. lia.
  - unfold setTaskDone in Hrun. simpl in Hrun.
    destruct (heap w !! t) as [tk|] eqn:Htk; [|done].
    apply pollTask_measure in Hrun. unfold weight in Hm. simpl in Hm.
    assert (getState (heap w) t = Some (_state tk)) as Hs
      by (unfold getState; by rewrite Htk).
    pose proof (countState_alter (heap w) t _ DONE BLOCKED Hs) as Hc.
    unfold measure in *. simpl in *. unfold setDone in Hrun.
    case_decide; simpl in Hc; lia.
Qed.

(** Every run ends. *)
Lemma step_sn w : sn step w.
Proof.
  remember (measure w) as n eqn:Hn. revert w Hn.
  induction (lt_wf n) as [n _ IH]. intros w ->.
  constructor. intros w' Hstep. apply (IH (measure w')); [|done].
  by apply step_measure.
Qed.

Lemma moves_from_done s : moves (Some DONE) s → s = Some DONE.
Proof. intros [?|[[? _]|[? _]]]; done. Qed.

Lemma moves_from_blocked s : moves (Some BLOCKED) s → s ≠ Some DONE.
Proof. intros [?|[[_ ?]|[? _]]]; congruence. Qed.

Lemma cycle_next {A} (R : relation A) x : tc R x x → ∃ y, R x y ∧ tc R y y.
Proof.
  intros Hc. inversion Hc as [? ? Hxx|? y ? Hxy Hyx]; subst.
  - eauto.
  - exists y. split; [done|]. by eapply tc_r.
Qed.
End measure.

Section runs.
Variables (h0 : Heap) (ex ce : ExecutorId) (root : TaskId).
Hypothesis Hvalid : ptrs_valid h0.
Hypothesis Hroot : root < length h0.
Hypothesis Hblocked : allBlocked h0.
Implicit Types (t u : TaskId) (e : ExecutorId) (w : World).

Local Abbreviation Inv := (Inv h0 ex ce root).
Local Abbreviation init := (runTask (TaskRunner_new ex) h0 root ce).

(** No task moves backwards, and none skips Running. *)
Lemma step_moves w w' t :
  Inv w → step w w' → moves (getState (heap w) t) (getState (heap w') t).
Proof.
  intros HI (p1 & e & u & p2 & Hp & Hrun).
  destruct u as [|t'|t']; simpl in Hrun.
  - by apply (pollTask_moves _ _ _ t) in Hrun.
  - simplify_eq. by left.
  - destruct (Inv_complete _ _ _ _ Hvalid Hroot w p1 e t' p2 HI Hp)
      as (-> & Hr & _).
    unfold setTaskDone in Hrun. simpl in Hrun.
    destruct (getState_lookup _ _ _ Hr) as [tk Htk]. rewrite Htk in Hrun.
    apply (pollTask_moves _ _ _ t) in Hrun. simpl in Hrun.
    unfold setDone in Hrun. rewrite getState_alter in Hrun.
    case_decide as Ht; [|done]. subst t'. rewrite Hr in *. simpl in Hrun.
    apply moves_from_done in Hrun. right. right. done.
Qed.

Lemma all_done w t :
  Inv w → getState (heap w) root = Some DONE → rtc (depends h0) root t →
  getState (heap w) t = Some DONE.
Proof.
  intros HI Hr Hreach. revert t Hreach. apply rtc_ind_r; [done|].
  intros t d _ Hd Ht. apply (inv_deps _ _ _ _ _ HI t); [by right|].
  eapply depends_graph; [|done]. symmetry. apply HI.
Qed.

(** Once the context is done nothing is running. *)
Lemma done_no_running w t :
  Inv w → _done (context w) = true → getState (heap w) t ≠ Some RUNNING.
Proof.
  intros HI Hd Hr.
  assert (getState (heap w) t = Some DONE); [|congruence].
  apply all_done; [done|by apply HI|]. apply (inv_touched _ _ _ _ _ HI).
  by left.
Qed.

Lemma idle_no_running w t :
  Inv w → pending w = [] → getState (heap w) t ≠ Some RUNNING.
Proof.
  intros HI Hp Hr. apply (inv_tok _ _ _ _ _ HI) in Hr.
  rewrite Hp in Hr. by apply elem_of_nil in Hr.
Qed.

Lemma acyclic_graph h h' : graph h = graph h' → acyclic h → acyclic h'.
Proof.
  intros Hg Hac t Ht. apply (Hac t). by eapply tc_depends_graph.
Qed.

Lemma live_pollTask w w' :
  acyclic h0 → Inv w → pollTask ce w = Some w' → live w'.
Proof.
  intros Hac HI Hp.
  pose proof (Inv_pollTask _ _ _ _ Hvalid Hroot w w' HI Hp) as HI'.
  pose proof (inv_root _ _ _ _ _ HI) as Hr.
  assert (∀ u, getState (heap w') u = Some RUNNING → live w') as Hrun.
  { intros u Hu. right. right. apply (inv_tok _ _ _ _ _ HI') in Hu.
    intros Hnil. rewrite Hnil in Hu. by apply elem_of_nil in Hu. }
  apply pollTask_cases in Hp
    as [[Hd ->]|[(Hnd & Hd & ->)|(Hnd & Hs & ready & checked & Hg & Hst)]].
  - by left.
  - by left.
  - rewrite Hr in *. destruct Hs as [Hb|Hrn].
    + assert (acyclic (heap w)) as Hac'.
      { eapply acyclic_graph; [|done]. symmetry. apply HI. }
      assert (ptrs_valid (heap w)) as Hv' by by eapply Inv_ptrs_valid.
      destruct (ready_or_running (heap w) _ root ready checked Hac' Hv' Hg Hb)
        as [[u Hu]|[u Hu]].
      * apply (Hrun u). rewrite (st_state _ _ _ Hst). by rewrite decide_True.
      * apply (Hrun u). rewrite (st_state _ _ _ Hst). by case_decide.
    + apply (Hrun root). rewrite (st_state _ _ _ Hst). by case_decide.
Qed.

Lemma live_step w w' : acyclic h0 → Inv w → step w w' → live w'.
Proof.
  intros Hac HI (p1 & e & u & p2 & Hp & Hrun).
  destruct u as [|t|t]; simpl in Hrun.
  - destruct (Inv_take_poll _ _ _ _ Hvalid Hroot w p1 e p2 HI Hp) as [-> HI'].
    by eapply live_pollTask.
  - simplify_eq. right. right. simpl. rewrite tokens_app, tokens_done.
    intros Hnil. by apply app_eq_nil in Hnil as [_ ?].
  - destruct (Inv_complete _ _ _ _ Hvalid Hroot w p1 e t p2 HI Hp)
      as (-> & Hr & HI').
    unfold setTaskDone in Hrun. simpl in Hrun.
    destruct (getState_lookup _ _ _ Hr) as [tk Htk]. rewrite Htk in Hrun.
    by eapply live_pollTask.
Qed.

Lemma live_reachable w : acyclic h0 → rtc step init w → live w.
Proof.
  intros Hac [Hw|(w1 & Hsteps & Hstep)]%rtc_inv_r.
  - subst w. right. left. exists ce. simpl. left.
  - eapply live_step; [done| |done]. by apply Inv_reachable.
Qed.

(** Where a run of an acyclic graph ends. *)
Lemma terminal w :
  acyclic h0 → rtc step init w → nf step w →
  pending w = [] ∧ callbacks w = [ce] ∧
  ∀ t, rtc (depends h0) root t → getState (heap w) t = Some DONE.
Proof.
  intros Hac Hsteps Hnf.
  pose proof (Inv_reachable _ _ _ _ Hvalid Hroot w Hblocked Hsteps) as HI.
  assert (pending w = []) as Hp.
  { destruct (decide (pending w = [])) as [|Hne]; [done|].
    destruct Hnf. by eapply Inv_progress. }
  destruct (live_reachable w Hac Hsteps) as [Hd|[[e He]|Ht]].
  - split; [done|]. split.
    + by rewrite (inv_callbacks _ _ _ _ _ HI), Hd.
    + intros t Ht. apply all_done; [done| |done]. by apply HI.
  - rewrite Hp in He. by apply elem_of_nil in He.
  - by rewrite Hp in Ht.
Qed.

(** Tasks on a cycle never leave Blocked. *)
Lemma cycle_blocked w t :
  rtc step init w → tc (depends h0) t t → getState (heap w) t = Some BLOCKED.
Proof.
  intros Hsteps. revert t.
  cut (Inv w ∧ ∀ t, tc (depends h0) t t → getState (heap w) t = Some BLOCKED);
    [by intros [_ ?]|].
  revert w Hsteps. apply rtc_ind_r.
  - split; [by apply Inv_init|]. intros t Ht. simpl.
    apply allBlocked_getState; [done|].
    apply cycle_next in Ht as (d & Hd & _). by eapply depends_source_valid.
  - intros w w' _ Hstep [HI Hcyc].
    pose proof (Inv_step _ _ _ _ Hvalid Hroot w w' HI Hstep) as HI'.
    split; [done|]. intros t Ht.
    pose proof (step_moves w w' t HI Hstep) as Hm.
    rewrite (Hcyc t Ht) in Hm.
    destruct Hm as [?|[[_ Hr]|[? _]]]; [done| |done].
    apply cycle_next in Ht as (d & Hd & Hdc).
    pose proof (step_moves w w' d HI Hstep) as Hmd.
    rewrite (Hcyc d Hdc) in Hmd. apply moves_from_blocked in Hmd.
    destruct Hmd. apply (inv_deps _ _ _ _ _ HI' t); [by left|].
    eapply depends_graph; [|done]. symmetry. apply HI'.
Qed.
End runs.

(** ** The statements about whole runs *)

Lemma nf_idle w : pending w = [] → nf step w.
Proof.
  intros Hp (w' & p1 & e & u & p2 & Hp' & _). rewrite Hp in Hp'.
  by destruct p1.
Qed.

Lemma drain_steps n w w' : drain n w = Some w' → rtc step w w'.
Proof.
  revert w. induction n as [|n IH]; intros w Hd; simpl in Hd.
  - destruct (pending w); by simplify_eq.
  - destruct (pending w) as [|[e u] p] eqn:Hp; [by simplify_eq|].
    destruct (runUnit e u (withPending p w)) as [w1|] eqn:Hrun; [|done].
    eapply rtc_l; [|by apply IH]. by exists [], e, u, p.
Qed.

Lemma diamond_allBlocked : allBlocked diamond.
Proof. repeat constructor. Qed.

Lemma diamond_ptrs_valid : ptrs_valid diamond.
Proof. unfold ptrs_valid, diamond. simpl. repeat constructor. Qed.

Lemma diamond_acyclic : acyclic diamond.
Proof.
  apply ranked_acyclic. unfold ranked, diamond. simpl. repeat constructor.
Qed.

(** C1: from a finite acyclic graph of blocked tasks, the run that
    [runTask] starts (the first poll, then one poll after each completion)
    always ends: no sequence of steps is infinite, a world with a pending
    unit can take a step, some world without a next step is reached, and in
    every such world nothing is pending, every task that the root reaches
    through dependencies is Done and the done task was invoked exactly once;
    before that it was invoked at most once. *)
Theorem run_completes (h : Heap) (executor contextExecutor : ExecutorId)
    (root : TaskId) :
  allBlocked h → ptrs_valid h → acyclic h → root < length h →
  let w0 := runTask (TaskRunner_new executor) h root contextExecutor in
  sn step w0 ∧
  (∃ w, rtc step w0 w ∧ nf step w) ∧
  (∀ w, rtc step w0 w → pending w ≠ [] → red step w) ∧
  (∀ w, rtc step w0 w → length (callbacks w) ≤ 1) ∧
  (∀ w, rtc step w0 w → nf step w →
     pending w = [] ∧ length (callbacks w) = 1 ∧
     ∀ t, rtc (depends h) root t → getState (heap w) t = Some DONE).
Proof.
  intros Hb Hv Hac Hr w0.
  assert (∀ w, rtc step w0 w → Inv h executor contextExecutor root w) as HI.
  { intros w Hw. by apply Inv_reachable. }
  split_and!.
  - apply step_sn.
  - assert (∀ w, rtc step w0 w → ∃ w', rtc step w w' ∧ nf step w') as Hwn.
    { intros w. induction (step_sn w) as [w _ IH]. intros Hw.
      destruct (decide (pending w = [])) as [Hp|Hp].
      - exists w. split; [done|]. by apply nf_idle.
      - destruct (Inv_progress _ _ _ _ Hv Hr w (HI w Hw) Hp) as [w1 H1].
        destruct (IH w1 H1) as (w' & Hw' & Hnf); [by eapply rtc_r|].
        exists w'. split; [by eapply rtc_l|done]. }
    destruct (Hwn w0) as (w & ? & ?); [done|]. by exists w.
  - intros w Hw. by apply Inv_progress with h executor contextExecutor root, HI.
  - intros w Hw. rewrite (inv_callbacks _ _ _ _ _ (HI w Hw)).
    destruct (_done (context w)); simpl; lia.
  - intros w Hw Hnf.
    destruct (terminal h executor contextExecutor root Hv Hr Hb w Hac Hw Hnf)
      as (Hp & Hc & Hd).
    by rewrite Hc.
Qed.

Lemma run_completes_diamond :
  let w0 := runTask (TaskRunner_new 7) diamond 0 9 in
  sn step w0 ∧
  (∃ w, rtc step w0 w ∧ nf step w) ∧
  (∀ w, rtc step w0 w → pending w ≠ [] → red step w) ∧
  (∀ w, rtc step w0 w → length (callbacks w) ≤ 1) ∧
  (∀ w, rtc step w0 w → nf step w →
     pending w = [] ∧ length (callbacks w) = 1 ∧
     ∀ t, rtc (depends diamond) 0 t → getState (heap w) t = Some DONE).
Proof.
  apply (run_completes diamond 7 9 0).
  - apply diamond_allBlocked.
  - apply diamond_ptrs_valid.
  - apply diamond_acyclic.
  - simpl. lia.
Defined.

Lemma moves_phase s s' a b :
  moves s s' → s = Some a → s' = Some b → phase a ≤ phase b.
Proof.
  intros [->|[[-> ->]|[-> ->]]] Ha Hb; simplify_eq; simpl; lia.
Qed.

Lemma step_length h ex ce root w w' :
  Inv h ex ce root w → Inv h ex ce root w' → length (heap w') = length (heap w).
Proof.
  intros HI HI'. apply graph_length.
  by rewrite (inv_graph _ _ _ _ _ HI), (inv_graph _ _ _ _ _ HI').
Qed.

(** C3: a poll starts a task only when all its dependencies are Done.  On
    an arena whose pointers are valid the traversal from the root returns a
    ready list, and [internalRunTasks] starts all of it without a failed
    assertion; at the moment it reaches a task of the list (after it started
    the tasks [before] it), the task is Blocked and each of its dependencies
    is Done, as they were when the poll computed the list.  And in every
    world of a run, every Running task has all its dependencies Done, also
    right after the step that started it. *)
Theorem running_needs_done_dependencies :
  (∀ (w : World) (root : TaskId),
     ptrs_valid (heap w) → root < length (heap w) →
     ∃ readyTasks checked w',
       getReadyTasks (S (length (heap w))) (heap w) root ([], ∅)
         = Some (readyTasks, checked) ∧
       internalRunTasks readyTasks w = Some w' ∧
       ∀ before task after, readyTasks = before ++ task :: after →
         ∃ w1, internalRunTasks before w = Some w1 ∧
               getState (heap w1) task = Some BLOCKED ∧
               depsDone (heap w) task ∧ depsDone (heap w1) task ∧
               getState (heap w') task = Some RUNNING) ∧
  (∀ (h : Heap) (executor contextExecutor : ExecutorId) (root : TaskId),
     allBlocked h → ptrs_valid h → root < length h →
     ∀ w, rtc step (runTask (TaskRunner_new executor) h root contextExecutor) w →
       (∀ t, getState (heap w) t = Some RUNNING → depsDone (heap w) t) ∧
       (∀ w' t, step w w' →
          getState (heap w) t = Some BLOCKED →
          getState (heap w') t = Some RUNNING →
          depsDone (heap w') t)).
Proof.
  split.
  - intros w root Hv Hr.
    destruct (getReadyTasks_enough_fuel (heap w) root Hv Hr)
      as [[readyTasks checked] Hg].
    pose proof (getReadyTasks_top _ _ _ _ _ Hg) as (Hnd & _ & _).
    destruct (internalRunTasks_total readyTasks w Hnd) as [w' Hrun].
    { intros t Ht. by destruct (ready_sound _ _ _ _ _ _ Hg Ht). }
    exists readyTasks, checked, w'. split_and!; [done..|].
    intros before task after ->.
    assert (task ∈ before ++ task :: after) as Hin by set_solver.
    destruct (ready_sound _ _ _ _ _ _ Hg Hin) as (Hb & Hd & _).
    destruct (internalRunTasks_app _ _ _ _ Hrun) as (w1 & H1 & _).
    apply NoDup_app in Hnd as (_ & Hdisj & _).
    apply internalRunTasks_started in H1 as Hs1.
    apply internalRunTasks_started in Hrun as Hs.
    exists w1. split_and!; [done| |done|by eapply started_depsDone|].
    + rewrite (st_state _ _ _ Hs1). case_decide as Hbefore; [|done].
      destruct (Hdisj task Hbefore). left.
    + rewrite (st_state _ _ _ Hs). by rewrite decide_True.
  - intros h ex ce root Hb Hv Hr w Hw.
    pose proof (Inv_reachable _ _ _ _ Hv Hr w Hb Hw) as HI.
    split.
    + intros t Ht. apply (inv_deps _ _ _ _ _ HI). by left.
    + intros w' t Hstep _ Ht.
      pose proof (Inv_step _ _ _ _ Hv Hr w w' HI Hstep) as HI'.
      apply (inv_deps _ _ _ _ _ HI'). by left.
Qed.

Lemma running_needs_done_dependencies_diamond :
  (∃ readyTasks checked w',
     getReadyTasks 5 diamond 0 ([], ∅) = Some (readyTasks, checked) ∧
     internalRunTasks readyTasks (runTask (TaskRunner_new 7) diamond 0 9)
       = Some w' ∧
     ∀ before task after, readyTasks = before ++ task :: after →
       depsDone diamond task ∧ getState (heap w') task = Some RUNNING) ∧
  (∀ w, rtc step (runTask (TaskRunner_new 7) diamond 0 9) w →
     (∀ t, getState (heap w) t = Some RUNNING → depsDone (heap w) t) ∧
     (∀ w' t, step w w' →
        getState (heap w) t = Some BLOCKED →
        getState (heap w') t = Some RUNNING →
        depsDone (heap w') t)).
Proof.
  destruct running_needs_done_dependencies as [Hpoll Hrun]. split.
  - destruct (Hpoll (runTask (TaskRunner_new 7) diamond 0 9) 0)
      as (readyTasks & checked & w' & Hg & Hr & Hall).
    + unfold ptrs_valid. simpl. repeat constructor.
    + simpl. lia.
    + exists readyTasks, checked, w'. split_and!; [done..|].
      intros before task after Hsplit.
      destruct (Hall before task after Hsplit) as (w1 & _ & _ & ? & _ & ?).
      done.
  - apply (Hrun diamond 7 9 0).
    + repeat constructor.
    + unfold ptrs_valid. simpl. repeat constructor.
    + simpl. lia.
Defined.

(** C4: in a run every task only moves from Blocked to Running and from
    Running to Done: a step leaves its state, or takes it one phase further,
    and over any number of steps its phase never goes down.  Every task is
    handed to the worker executor at most once and its body runs at most
    once; exactly the tasks that left Blocked have been handed over, and
    every Done task has run.  So the task at the bottom of a diamond is
    dispatched and run exactly once. *)
Theorem states_move_forward_once (h : Heap)
    (executor contextExecutor : ExecutorId) (root : TaskId) :
  allBlocked h → ptrs_valid h → root < length h →
  ∀ w, rtc step (runTask (TaskRunner_new executor) h root contextExecutor) w →
    (∀ w' t, step w w' →
       getState (heap w') t = getState (heap w) t ∨
       (getState (heap w) t = Some BLOCKED ∧
        getState (heap w') t = Some RUNNING) ∨
       (getState (heap w) t = Some RUNNING ∧
        getState (heap w') t = Some DONE)) ∧
    (∀ w' t s s', rtc step w w' →
       getState (heap w) t = Some s → getState (heap w') t = Some s' →
       phase s ≤ phase s') ∧
    NoDup (dispatched w) ∧
    NoDup ((ran w).*2) ∧
    (∀ t, t ∈ dispatched w ↔
          getState (heap w) t = Some RUNNING ∨
          getState (heap w) t = Some DONE) ∧
    (∀ t, getState (heap w) t = Some DONE → t ∈ (ran w).*2).
Proof.
  intros Hb Hv Hr w Hw.
  pose proof (Inv_reachable _ _ _ _ Hv Hr w Hb Hw) as HI.
  split_and!; try apply HI.
  - intros w' t Hstep. by apply (step_moves h executor contextExecutor root).
  - intros w' t s s' Hsteps. revert s.
    induction Hsteps as [w|w w1 w' Hstep Hsteps IH]; intros s Hs Hs'.
    + simplify_eq. lia.
    + pose proof (Inv_step _ _ _ _ Hv Hr w w1 HI Hstep) as HI1.
      pose proof (step_moves _ _ _ _ Hv Hr w w1 t HI Hstep) as Hm.
      assert (is_Some (getState (heap w1) t)) as [s1 Hs1].
      { apply getState_is_Some.
        rewrite (step_length _ _ _ _ w w1 HI HI1).
        apply getState_is_Some. eauto. }
      pose proof (moves_phase _ _ _ _ Hm Hs Hs1).
      assert (phase s1 ≤ phase s'); [|lia].
      apply IH; [by eapply rtc_r|done..].
  - intros t Ht. apply (inv_ran _ _ _ _ _ HI). by left.
Qed.

Lemma states_move_forward_once_diamond :
  let w := mkWorld (mkTask DONE <$> [[1; 2]; [3]; [3]; []])
             (mkTaskRunner 7 0) (mkContext 0 9 true) []
             [3; 1; 2; 0] [(7, 3); (7, 1); (7, 2); (7, 0)] [9] in
  drain 20 (runTask (TaskRunner_new 7) diamond 0 9) = Some w ∧
  NoDup (dispatched w) ∧ NoDup ((ran w).*2) ∧
  (3 ∈ dispatched w ↔
   getState (heap w) 3 = Some RUNNING ∨ getState (heap w) 3 = Some DONE) ∧
  3 ∈ (ran w).*2.
Proof.
  intros w.
  assert (drain 20 (runTask (TaskRunner_new 7) diamond 0 9) = Some w) as Hd
    by (vm_compute; reflexivity).
  split; [exact Hd|].
  destruct (states_move_forward_once diamond 7 9 0) with (w := w)
    as (_ & _ & Hnd & Hnr & Hdisp & Hran).
  - repeat constructor.
  - unfold ptrs_valid. simpl. repeat constructor.
  - simpl. lia.
  - apply drain_steps with 20. exact Hd.
  - split_and!; [done..|]. apply Hran. reflexivity.
Defined.

Lemma countState_le s (h : Heap) : countState s h ≤ length h.
Proof. unfold countState. apply length_filter. Qed.

(** C8: in a run from blocked tasks the counter [_runningTasks] is the
    number of tasks in state Running, as far as 32 bits can hold it (and
    exactly that number when the arena has fewer than 2^32 tasks).  It is 0
    when [runTask] returns, 0 when the context is done and 0 when nothing is
    pending, so that the assertion of the destructor holds there. *)
Theorem running_counter_counts (h : Heap)
    (executor contextExecutor : ExecutorId) (root : TaskId) :
  allBlocked h → ptrs_valid h → root < length h →
  let w0 := runTask (TaskRunner_new executor) h root contextExecutor in
  _runningTasks (runner w0) = 0%Z ∧
  ∀ w, rtc step w0 w →
    _runningTasks (runner w)
      = wrap32 (Z.of_nat (countState RUNNING (heap w))) ∧
    ((Z.of_nat (length h) < 2 ^ 32)%Z →
     _runningTasks (runner w) = Z.of_nat (countState RUNNING (heap w))) ∧
    (_done (context w) = true ∨ pending w = [] →
     countState RUNNING (heap w) = 0 ∧
     _runningTasks (runner w) = 0%Z ∧
     TaskRunner_delete (runner w) = Some ()).
Proof.
  intros Hb Hv Hr w0. split; [done|]. intros w Hw.
  pose proof (Inv_reachable _ _ _ _ Hv Hr w Hb Hw) as HI.
  pose proof (inv_counter _ _ _ _ _ HI) as Hc.
  split_and!; [done| |].
  - intros Hsmall. rewrite Hc. apply wrap32_small.
    pose proof (countState_le RUNNING (heap w)) as Hle.
    erewrite Inv_length in Hle by done. lia.
  - intros Hidle.
    assert (countState RUNNING (heap w) = 0) as H0.
    { apply countState_zero. intros t. destruct Hidle.
      - by apply (done_no_running h executor contextExecutor root).
      - by apply (idle_no_running h executor contextExecutor root). }
    assert (_runningTasks (runner w) = 0%Z) as Hz by (by rewrite Hc, H0).
    split_and!; [done..|]. unfold TaskRunner_delete. by rewrite Hz.
Qed.

Lemma running_counter_counts_diamond :
  let w0 := runTask (TaskRunner_new 7) diamond 0 9 in
  _runningTasks (runner w0) = 0%Z ∧
  ∀ w, rtc step w0 w →
    _runningTasks (runner w)
      = wrap32 (Z.of_nat (countState RUNNING (heap w))) ∧
    ((Z.of_nat (length diamond) < 2 ^ 32)%Z →
     _runningTasks (runner w) = Z.of_nat (countState RUNNING (heap w))) ∧
    (_done (context w) = true ∨ pending w = [] →
     countState RUNNING (heap w) = 0 ∧
     _runningTasks (runner w) = 0%Z ∧
     TaskRunner_delete (runner w) = Some ()).
Proof.
  apply (running_counter_counts diamond 7 9 0).
  - repeat constructor.
  - unfold ptrs_valid. simpl. repeat constructor.
  - simpl. lia.
Defined.

(** C9: a task that lies on a cycle of dependencies stays Blocked through
    the whole run: no traversal appends it to a ready list, it is never
    handed to the worker executor, and when the root reaches it the done
    task is never invoked.  Nothing fails on the way: the traversal from the
    root ends within the fuel a poll gives it, a poll returns in every world
    of the run, and so does every pending unit. *)
Theorem cycle_is_never_started (h : Heap)
    (executor contextExecutor : ExecutorId) (root : TaskId) :
  allBlocked h → ptrs_valid h → root < length h →
  ∀ w, rtc step (runTask (TaskRunner_new executor) h root contextExecutor) w →
    (∀ t, tc (depends h) t t →
       getState (heap w) t = Some BLOCKED ∧
       (t ∉ dispatched w) ∧
       (∀ fuel task acc acc',
          getReadyTasks fuel (heap w) task acc = Some acc' →
          t ∈ acc'.1 → t ∈ acc.1) ∧
       (rtc (depends h) root t → callbacks w = [])) ∧
    is_Some (getReadyTasks (S (length (heap w))) (heap w) root ([], ∅)) ∧
    (∀ e, is_Some (pollTask e w)) ∧
    (∀ p1 e u p2, pending w = p1 ++ (e, u) :: p2 →
       is_Some (runUnit e u (withPending (p1 ++ p2) w))).
Proof.
  intros Hb Hv Hr w Hw.
  pose proof (Inv_reachable _ _ _ _ Hv Hr w Hb Hw) as HI.
  split_and!.
  - intros t Hcyc.
    pose proof (cycle_blocked _ _ _ _ Hv Hr Hb w t Hw Hcyc) as Ht.
    split_and!; [done| | |].
    + rewrite (inv_disp _ _ _ _ _ HI). intros [?|?]; congruence.
    + intros fuel task acc acc' [new Hok]%getReadyTasks_ok Hin.
      rewrite (vo_ready _ _ _ _ _ Hok) in Hin.
      apply elem_of_app in Hin as [?|Hin]; [done|]. exfalso.
      destruct (vo_new _ _ _ _ _ Hok t Hin) as [Hc Hnc].
      apply (vo_ready_iff _ _ _ _ _ Hok t Hc Hnc) in Hin.
      apply cycle_next in Hcyc as (d & Hd & Hdc).
      pose proof (cycle_blocked _ _ _ _ Hv Hr Hb w d Hw Hdc) as Hdb.
      rewrite (Hin d) in Hdb; [done|].
      eapply depends_graph; [|done]. symmetry. apply HI.
    + intros Hreach. rewrite (inv_callbacks _ _ _ _ _ HI).
      destruct (_done (context w)) eqn:Hd; [|done]. exfalso.
      apply (inv_done _ _ _ _ _ HI) in Hd.
      pose proof (all_done _ _ _ _ w t HI Hd Hreach). congruence.
  - apply getReadyTasks_enough_fuel.
    + by apply (Inv_ptrs_valid h executor contextExecutor root).
    + by erewrite Inv_length.
  - intros e. by apply (pollTask_total h executor contextExecutor root).
  - intros p1 e u p2 Hp.
    destruct (Inv_runUnit _ _ _ _ Hv Hr w p1 e u p2 HI Hp) as (w' & -> & _).
    done.
Qed.

Lemma cycle_is_never_started_knot :
  tc (depends knot) 1 1 ∧ rtc (depends knot) 0 1 ∧
  ∀ w, rtc step (runTask (TaskRunner_new 7) knot 0 9) w →
    getState (heap w) 1 = Some BLOCKED ∧ (1 ∉ dispatched w) ∧
    callbacks w = [] ∧ (∀ e, is_Some (pollTask e w)).
Proof.
  assert (depends knot 0 1) as H01 by (exists [1; 3]; split; [done|set_solver]).
  assert (depends knot 1 2) as H12 by (exists [2]; split; [done|set_solver]).
  assert (depends knot 2 1) as H21 by (exists [1]; split; [done|set_solver]).
  assert (tc (depends knot) 1 1) as Hcyc
    by (eapply tc_l; [exact H12|by apply tc_once]).
  split; [done|]. split; [by apply rtc_once|]. intros w Hw.
  destruct (cycle_is_never_started knot 7 9 0) with (w := w)
    as (H1 & _ & Hpoll & _).
  - repeat constructor.
  - unfold ptrs_valid. simpl. repeat constructor.
  - simpl. lia.
  - exact Hw.
  - destruct (H1 1 Hcyc) as (Hb & Hd & _ & Hcb).
    split_and!; [done..|by apply Hcb, rtc_once|done].
Defined.

Example knot_run :
  (λ w, (_state <$> heap w, dispatched w, callbacks w, pending w))
    <$> drain 20 (runTask (TaskRunner_new 7) knot 0 9)
  = Some ([BLOCKED; BLOCKED; BLOCKED; DONE], [3], [], []).
Proof. vm_compute. reflexivity. Qed.

(** ** The statements about one traversal and one poll *)

Lemma getReadyTasks_skip fuel (h : Heap) (task : TaskId) (acc acc' : Found) :
  getReadyTasks fuel h task acc = Some acc' →
  getState h task ≠ Some BLOCKED ∨ task ∈ acc.2 → acc' = acc.
Proof.
  destruct fuel as [|fuel]; [done|]. rewrite getReadyTasks_S. unfold getState.
  destruct (h !! task) as [tk|]; [|done]. simpl.
  case_decide as Hb; [|by intros ?; simplify_eq].
  case_decide as Hc; [by intros ?; simplify_eq|].
  intros _ [Hn|?]; [|done]. destruct Hn. by rewrite Hb.
Qed.

Lemma getReadyTasks_result (h : Heap) (fuel : nat) (task : TaskId)
    (readyTasks readyTasks' : TaskList) (checked checked' : TaskSet) :
  getReadyTasks fuel h task (readyTasks, checked)
    = Some (readyTasks', checked') →
  ∃ new,
    readyTasks' = readyTasks ++ new ∧ NoDup new ∧ checked ⊆ checked' ∧
    (∀ u, u ∈ new ↔ u ∈ checked' ∧ (u ∉ checked) ∧ depsDone h u) ∧
    (∀ u, u ∈ checked' → u ∉ checked →
          getState h u = Some BLOCKED ∧ rtc (bdep h) task u) ∧
    (getState h task ≠ Some BLOCKED ∨ task ∈ checked →
     readyTasks' = readyTasks ∧ checked' = checked) ∧
    (getState h task = Some BLOCKED → task ∈ checked') ∧
    (∀ u d, u ∈ checked' → u ∉ checked →
            depends h u d → getState h d = Some BLOCKED → d ∈ checked') ∧
    (checked = ∅ →
     ∀ u, u ∈ checked' ↔ getState h task = Some BLOCKED ∧ rtc (bdep h) task u).
Proof.
  intros Hg. destruct (getReadyTasks_ok _ _ _ _ _ Hg) as [new Hok].
  pose proof Hok as [R M D N B P I C S]. simpl in *.
  assert (∀ u, u ∈ checked' → u ∉ checked →
            getState h u = Some BLOCKED ∧ rtc (bdep h) task u) as Hvis.
  { intros u Hu Hn. split; [by apply B|].
    destruct (P u Hu Hn) as (s & Hs%list_elem_of_singleton & _ & ?).
    by subst s. }
  exists new. split_and!; try done.
  - intros u. split.
    + intros Hu. destruct (N u Hu). split_and!; [done..|]. by apply I.
    + intros (Hu & Hn & Hd). by apply I.
  - intros Hskip. apply (getReadyTasks_skip _ _ _ _ _ Hg) in Hskip.
    by simplify_eq.
  - intros Hb. apply S; [left|done].
  - intros u d Hu Hn Hd Hdb. by apply (C u d).
  - intros ->. intros u. split.
    { intros Hu. destruct (P u Hu) as (s & Hs%list_elem_of_singleton & ? & ?);
        [set_solver|]. by subst s. }
    intros [Hb Hreach]. revert u Hreach. apply rtc_ind_r.
    + apply S; [left|done].
    + intros u v _ Huv IH. apply (C u v); [done|set_solver|done].
Qed.

(** C2: what one readiness traversal does.  On an arena whose pointers are
    valid it returns, for any fuel above the number of tasks not yet
    checked, and more fuel gives the same result.  The tasks it visits
    (those it adds to [checked]) are Blocked and are reached from the task
    it starts at through dependencies that are Blocked; it visits nothing
    when the task it starts at is not Blocked or was visited before, it
    visits every Blocked dependency of a task it visits, and so, started
    with nothing visited, it visits exactly the tasks reached through
    Blocked dependencies, never going into a Running or Done one.  It
    appends a task to the ready list, once, if and only if it visits the
    task (which therefore is Blocked and was not visited before) and every
    dependency of the task is Done. *)
Theorem getReadyTasks_appends_the_ready (h : Heap) (fuel : nat) (task : TaskId)
    (readyTasks : TaskList) (checked : TaskSet) :
  ptrs_valid h → task < length h → size (arena h ∖ checked) < fuel →
  ∃ readyTasks' checked' new,
    getReadyTasks fuel h task (readyTasks, checked)
      = Some (readyTasks', checked') ∧
    (∀ fuel', fuel ≤ fuel' →
       getReadyTasks fuel' h task (readyTasks, checked)
         = Some (readyTasks', checked')) ∧
    readyTasks' = readyTasks ++ new ∧ NoDup new ∧ checked ⊆ checked' ∧
    (∀ u, u ∈ new ↔ u ∈ checked' ∧ (u ∉ checked) ∧ depsDone h u) ∧
    (∀ u, u ∈ checked' → u ∉ checked →
          getState h u = Some BLOCKED ∧ rtc (bdep h) task u) ∧
    (getState h task ≠ Some BLOCKED ∨ task ∈ checked →
     readyTasks' = readyTasks ∧ checked' = checked) ∧
    (getState h task = Some BLOCKED → task ∈ checked') ∧
    (∀ u d, u ∈ checked' → u ∉ checked →
            depends h u d → getState h d = Some BLOCKED → d ∈ checked') ∧
    (checked = ∅ →
     ∀ u, u ∈ checked' ↔ getState h task = Some BLOCKED ∧ rtc (bdep h) task u).
Proof.
  intros Hv Ht Hfuel.
  destruct (getReadyTasks_enough h fuel task (readyTasks, checked) Hv Ht Hfuel)
    as [[readyTasks' checked'] Hg].
  destruct (getReadyTasks_result _ _ _ _ _ _ _ Hg) as (new & Hnew).
  exists readyTasks', checked', new. split; [done|]. split; [|done].
  intros fuel' Hle. by eapply getReadyTasks_fuel_mono.
Qed.

Lemma getReadyTasks_appends_the_ready_diamond :
  ∃ readyTasks' checked' new,
    getReadyTasks 5 diamond 0 ([], ∅) = Some (readyTasks', checked') ∧
    readyTasks' = [] ++ new ∧ NoDup new ∧
    (∀ u, u ∈ new ↔ u ∈ checked' ∧ (u ∉ (∅ : gset nat)) ∧ depsDone diamond u) ∧
    (∀ u, u ∈ checked' ↔
          getState diamond 0 = Some BLOCKED ∧ rtc (bdep diamond) 0 u).
Proof.
  destruct (getReadyTasks_appends_the_ready diamond 5 0 [] ∅)
    as (readyTasks' & checked' & new & H1 & _ & H2 & H3 & _ & H4 & _ & _ & _
        & _ & H9).
  - unfold ptrs_valid. simpl. repeat constructor.
  - simpl. lia.
  - vm_compute. lia.
  - exists readyTasks', checked', new. split_and!; [done..|]. by apply H9.
Defined.

(** C5: a poll of a context that is already done changes nothing: it
    returns the world it was given, with the same task states, pending
    units, counter and invocations of the done task. *)
Theorem pollTask_done_is_noop (e : ExecutorId) (w : World) :
  _done (context w) = true → pollTask e w = Some w.
Proof. intros Hd. unfold pollTask. by rewrite Hd. Qed.

Lemma pollTask_done_is_noop_example :
  let w := mkWorld [mkTask DONE []] (mkTaskRunner 7 0) (mkContext 0 9 true)
             [] [0] [(7, 0)] [9] in
  pollTask 9 w = Some w.
Proof. intros w. apply (pollTask_done_is_noop 9 w). reflexivity. Defined.

(** C10: a Running dependency only clears the ready flag.  The loop over
    the dependencies goes on with the ones after it; so the poll of an arena
    whose pointers are valid returns a result in which, for every Blocked
    task it reaches, every Blocked dependency after a Running one is visited
    too, with all that it reaches through Blocked dependencies, and what is
    ready there is in the ready list of the same poll. *)
Theorem running_dependency_does_not_end_the_loop :
  (∀ (rec : TaskId → Found → option Found) (h : Heap)
     (deps1 : list TaskId) (r : TaskId) (deps2 : list TaskId)
     (ready : bool) (acc : Found),
     getState h r = Some RUNNING →
     depsLoop rec h (deps1 ++ r :: deps2) ready acc =
       match depsLoop rec h deps1 ready acc with
       | Some (_, acc1) => depsLoop rec h deps2 false acc1
       | None => None
       end) ∧
  (∀ (h : Heap) (root : TaskId),
     ptrs_valid h → root < length h →
     ∃ readyTasks checked,
       getReadyTasks (S (length h)) h root ([], ∅)
         = Some (readyTasks, checked) ∧
       ∀ (task : TaskId) (deps1 : list TaskId) (r : TaskId)
         (deps2 : list TaskId) (d : TaskId),
         getState h root = Some BLOCKED → rtc (bdep h) root task →
         getDependencies h task = Some (deps1 ++ r :: deps2) →
         getState h r = Some RUNNING →
         d ∈ deps2 → getState h d = Some BLOCKED →
         d ∈ checked ∧
         ∀ u, rtc (bdep h) d u →
              u ∈ checked ∧ (depsDone h u → u ∈ readyTasks)).
Proof.
  split.
  - intros rec h deps1 r deps2 ready acc Hr. revert ready acc.
    induction deps1 as [|d deps1 IH]; intros ready acc; simpl.
    + by rewrite Hr.
    + destruct (getState h d) as [[]|]; [|by rewrite IH..|done].
      destruct (rec d acc); [|done]. by rewrite IH.
  - intros h root Hv Hroot.
    destruct (getReadyTasks_enough_fuel h root Hv Hroot)
      as [[readyTasks checked] Hg].
    exists readyTasks, checked. split; [done|].
    intros task deps1 r deps2 d Hb Hreach Hdeps _ Hd Hdb.
    apply getReadyTasks_top in Hg as (_ & Hc & Hready).
    assert (bdep h task d) as Hedge.
    { split; [|done]. exists (deps1 ++ r :: deps2).
      rewrite <-getDependencies_graph. split; [done|set_solver]. }
    assert (rtc (bdep h) root d) as Hrd by (by eapply rtc_r).
    split; [by apply Hc|]. intros u Hu.
    assert (u ∈ checked) as Huc.
    { apply Hc. split; [done|]. by etrans. }
    split; [done|]. intros Hdone. by apply Hready.
Qed.

Lemma running_dependency_does_not_end_the_loop_inflight :
  depsLoop (getReadyTasks 4 inflight) inflight ([] ++ 1 :: [2]) true
      ([], {[0]})
    = depsLoop (getReadyTasks 4 inflight) inflight [2] false ([], {[0]}) ∧
  ∃ readyTasks checked,
    getReadyTasks 5 inflight 0 ([], ∅) = Some (readyTasks, checked) ∧
    2 ∈ checked ∧ (depsDone inflight 2 → 2 ∈ readyTasks).
Proof.
  destruct running_dependency_does_not_end_the_loop as [Hloop Hpoll].
  split.
  - apply (Hloop (getReadyTasks 4 inflight) inflight [] 1 [2] true ([], {[0]})).
    reflexivity.
  - destruct (Hpoll inflight 0) as (readyTasks & checked & Hg & Hall).
    + unfold ptrs_valid. simpl. repeat constructor.
    + simpl. lia.
    + exists readyTasks, checked. split; [done|].
      destruct (Hall 0 [] 1 [2] 2) as [Hc Hu].
      * reflexivity.
      * done.
      * reflexivity.
      * reflexivity.
      * set_solver.
      * reflexivity.
      * split; [done|]. by apply Hu.
Defined.

Example inflight_poll :
  fst <$> getReadyTasks 5 inflight 0 ([], ∅) = Some [2].
Proof. vm_compute. reflexivity. Qed.

(** ** The asynchronous entry point and the single task *)

(** C6, as the spec has it, fails: the executor given to [runTask] is not
    the one that runs the bodies.  With a runner made for executor 7 and
    [runTask] called with executor 9, the body of the task is run by 7. *)
Lemma runTask_executor_does_not_run_bodies :
  ¬ (∀ w, rtc step (runTask (TaskRunner_new 7) [blocked []] 0 9) w →
          ∀ e t, (e, t) ∈ ran w → e = 9).
Proof.
  intros Hclaim.
  set (w := mkWorld [mkTask DONE []] (mkTaskRunner 7 0)
              (mkContext 0 9 true) [] [0] [(7, 0)] [9]).
  assert (drain 3 (runTask (TaskRunner_new 7) [blocked []] 0 9) = Some w)
    as Hd by (vm_compute; reflexivity).
  apply drain_steps in Hd.
  specialize (Hclaim w Hd 7 0 (list_elem_of_here _ _)). lia.
Qed.

(** C6, amended: [runTask(rootTask, contextExecutor, doneTask)] makes the
    context and hands the first poll to the executor it was given, the
    context executor, and that is all it does: no unit has run, no task has
    changed.  In the run that follows, polls and completions are handed to
    the context executor and bodies to the executor the runner was
    constructed with, which also runs them; the done task is invoked at most
    once, by the context executor, and only when every task the root reaches
    is Done; in an acyclic graph it has been invoked when the run ends. *)
Theorem runTask_hands_the_poll_to_the_context (h : Heap)
    (executor contextExecutor : ExecutorId) (root : TaskId) :
  let w0 := runTask (TaskRunner_new executor) h root contextExecutor in
  w0 = mkWorld h (TaskRunner_new executor)
         (mkContext root contextExecutor false)
         [(contextExecutor, PollUnit)] [] [] [] ∧
  (allBlocked h → ptrs_valid h → root < length h →
   ∀ w, rtc step w0 w →
     (∀ e u, (e, u) ∈ pending w →
        e = match u with
            | BodyUnit _ => executor
            | _ => contextExecutor
            end) ∧
     (∀ e t, (e, t) ∈ ran w → e = executor) ∧
     (callbacks w = [] ∨ callbacks w = [contextExecutor]) ∧
     (callbacks w = [contextExecutor] →
      ∀ t, rtc (depends h) root t → getState (heap w) t = Some DONE) ∧
     (acyclic h → nf step w → callbacks w = [contextExecutor])).
Proof.
  intros w0. split; [done|]. intros Hb Hv Hr w Hw.
  pose proof (Inv_reachable _ _ _ _ Hv Hr w Hb Hw) as HI.
  pose proof (inv_callbacks _ _ _ _ _ HI) as Hcb.
  split_and!.
  - apply HI.
  - apply HI.
  - destruct (_done (context w)); eauto.
  - intros Hc t Ht. destruct (_done (context w)) eqn:Hd; [|congruence].
    eapply all_done; [done| |done]. by apply HI.
  - intros Hac Hnf.
    by destruct (terminal _ _ _ _ Hv Hr Hb w Hac Hw Hnf) as (_ & ? & _).
Qed.

Lemma runTask_hands_the_poll_to_the_context_diamond :
  let w0 := runTask (TaskRunner_new 7) diamond 0 9 in
  pending w0 = [(9, PollUnit)] ∧
  ∀ w, rtc step w0 w →
    (∀ e t, (e, t) ∈ ran w → e = 7) ∧
    (callbacks w = [] ∨ callbacks w = [9]) ∧
    (nf step w → callbacks w = [9]).
Proof.
  destruct (runTask_hands_the_poll_to_the_context diamond 7 9 0) as [H0 Hrun].
  split; [done|]. intros w Hw.
  destruct (Hrun diamond_allBlocked diamond_ptrs_valid) with (w := w)
    as (_ & Hran & Hcb & _ & Hend).
  - simpl. lia.
  - exact Hw.
  - split_and!; [done..|]. apply Hend, diamond_acyclic.
Defined.

(** C7, as the spec has it, fails: after the one poll of a root without
    dependencies the root is Running, not Done, and the done task has not
    been invoked. *)
Lemma single_task_is_not_done_after_one_poll :
  ¬ (∀ w1, pollTask 9
             (withPending [] (runTask (TaskRunner_new 7) [blocked []] 0 9))
           = Some w1 →
           getState (heap w1) 0 = Some DONE ∧ callbacks w1 = [9]).
Proof.
  intros Hclaim.
  destruct (Hclaim (mkWorld [mkTask RUNNING []] (mkTaskRunner 7 1)
                      (mkContext 0 9 false) [(7, BodyUnit 0)] [0] [] []))
    as [Hd _]; [by vm_compute|].
  by vm_compute in Hd.
Qed.

(** C7, amended: for a blocked root without dependencies the first poll
    finds it ready and starts it: the root is Running and its body is handed
    to the worker executor; the done task is not invoked.  The worker runs
    the body and hands the done unit to the context executor.  That unit
    sets the root Done, takes the counter back to 0 and polls a second time;
    this second poll invokes the done task, once.  Then nothing is
    pending. *)
Theorem single_task_takes_two_polls (h : Heap)
    (executor contextExecutor : ExecutorId) (root : TaskId) :
  h !! root = Some (mkTask BLOCKED []) →
  let w0 := runTask (TaskRunner_new executor) h root contextExecutor in
  ∃ w1 w2 wd w3,
    pollTask contextExecutor (withPending [] w0) = Some w1 ∧
    getState (heap w1) root = Some RUNNING ∧
    pending w1 = [(executor, BodyUnit root)] ∧
    dispatched w1 = [root] ∧ callbacks w1 = [] ∧
    runUnit executor (BodyUnit root) (withPending [] w1) = Some w2 ∧
    pending w2 = [(contextExecutor, DoneUnit root)] ∧
    ran w2 = [(executor, root)] ∧ callbacks w2 = [] ∧
    setTaskDone contextExecutor root (withPending [] w2)
      = pollTask contextExecutor wd ∧
    getState (heap wd) root = Some DONE ∧
    _runningTasks (runner wd) = 0%Z ∧ callbacks wd = [] ∧
    pollTask contextExecutor wd = Some w3 ∧
    getState (heap w3) root = Some DONE ∧
    callbacks w3 = [contextExecutor] ∧ pending w3 = [] ∧
    step w0 w1 ∧ step w1 w2 ∧ step w2 w3 ∧ nf step w3.
Proof.
  intros Hroot w0.
  assert (getState h root = Some BLOCKED) as Hs
    by (unfold getState; by rewrite Hroot).
  assert (getReadyTasks (S (length h)) h root ([], ∅)
          = Some ([root], {[root]} ∪ ∅)) as Hg.
  { rewrite getReadyTasks_S, Hroot. simpl.
    rewrite decide_False by set_solver. done. }
  set (w1 := mkWorld (setRunning root h) (mkTaskRunner executor 1)
               (mkContext root contextExecutor false)
               [(executor, BodyUnit root)] [root] [] []).
  set (w2 := mkWorld (setRunning root h) (mkTaskRunner executor 1)
               (mkContext root contextExecutor false)
               [(contextExecutor, DoneUnit root)] [root]
               [(executor, root)] []).
  set (wd := mkWorld (setDone root (setRunning root h))
               (mkTaskRunner executor 0)
               (mkContext root contextExecutor false)
               [] [root] [(executor, root)] []).
  set (w3 := Context_setDone contextExecutor wd).
  assert (is_Some (h !! root)) as Hsome by eauto.
  assert (getState (setRunning root h) root = Some RUNNING) as Hr1
    by (by apply getState_alter_eq).
  assert (getState (setDone root (setRunning root h)) root = Some DONE) as Hd.
  { apply getState_alter_eq. apply getState_lookup in Hr1. done. }
  assert (pollTask contextExecutor (withPending [] w0) = Some w1) as H1.
  { unfold pollTask. simpl. rewrite Hs, Hg. simpl.
    unfold internalRunTask. simpl. by rewrite Hs. }
  assert (runUnit executor (BodyUnit root) (withPending [] w1) = Some w2)
    as H2 by done.
  assert (setTaskDone contextExecutor root (withPending [] w2)
          = pollTask contextExecutor wd) as Hsd.
  { unfold setTaskDone. simpl.
    destruct (getState_lookup _ _ _ Hr1) as [tk ->]. done. }
  assert (pollTask contextExecutor wd = Some w3) as H3.
  { unfold pollTask. simpl. by rewrite Hd. }
  exists w1, w2, wd, w3. split_and!; try done.
  - by exists [], contextExecutor, PollUnit, [].
  - by exists [], executor, (BodyUnit root), [].
  - exists [], contextExecutor, (DoneUnit root), []. split; [done|].
    simpl. by rewrite Hsd.
  - by apply nf_idle.
Qed.

Lemma single_task_takes_two_polls_example :
  let w0 := runTask (TaskRunner_new 7) [blocked []] 0 9 in
  ∃ w1 w3,
    pollTask 9 (withPending [] w0) = Some w1 ∧
    getState (heap w1) 0 = Some RUNNING ∧ callbacks w1 = [] ∧
    rtc step w1 w3 ∧
    getState (heap w3) 0 = Some DONE ∧ callbacks w3 = [9] ∧ pending w3 = [].
Proof.
  destruct (single_task_takes_two_polls [blocked []] 7 9 0)
    as (w1 & w2 & wd & w3 & H); [reflexivity|].
  exists w1, w3.
  destruct H as (? & ? & _ & _ & ? & _ & _ & _ & _ & _ & _ & _ & _ & _ & ?
                 & ? & ? & _ & ? & ? & _).
  split_and!; try done. eapply rtc_l; [done|]. by apply rtc_once.
Defined.

(** * Beyond the claims *)

(** ** The end of a run and the synchronous entry point *)

Lemma pollTask_pending_poll e w w' e' :
  pollTask e w = Some w' →
  (e', PollUnit) ∈ pending w' → (e', PollUnit) ∈ pending w.
Proof.
  intros [[_ ->]|[(_ & _ & ->)|(_ & _ & ready & checked & _ & Hs)]]%pollTask_cases;
    [done..|].
  rewrite (st_pending _ _ _ Hs). intros [?|Hin]%elem_of_app; [done|].
  apply list_elem_of_fmap in Hin as (? & ? & ?). done.
Qed.

Lemma runUnit_pending_poll e (u : Unit) w w' e' :
  runUnit e u w = Some w' →
  (e', PollUnit) ∈ pending w' → (e', PollUnit) ∈ pending w.
Proof.
  destruct u as [|t|t]; simpl.
  - apply pollTask_pending_poll.
  - intros ?; simplify_eq. simpl. intros [?|Hin]%elem_of_app; [done|].
    apply list_elem_of_singleton in Hin. done.
  - unfold setTaskDone. destruct (heap w !! t); [|done].
    intros Hp Hin. by apply (pollTask_pending_poll _ _ _ _ Hp) in Hin.
Qed.

Lemma pollTask_ran e w w' : pollTask e w = Some w' → ran w' = ran w.
Proof.
  intros [[_ ->]|[(_ & _ & ->)|(_ & _ & ready & checked & _ & Hs)]]%pollTask_cases;
    [done..|]. apply Hs.
Qed.

Lemma promise_set w : promise w = Some true ↔ callbacks w ≠ [].
Proof. unfold promise. destruct (callbacks w); naive_solver. Qed.

Lemma promise_unset w : promise w = None ↔ callbacks w = [].
Proof. unfold promise. destruct (callbacks w); naive_solver. Qed.

Section ends.
Variables (h0 : Heap) (ex ce : ExecutorId) (root : TaskId).
Hypothesis Hvalid : ptrs_valid h0.
Hypothesis Hroot : root < length h0.
Hypothesis Hblocked : allBlocked h0.
Implicit Types (t u : TaskId) (e : ExecutorId) (w : World).

Local Abbreviation Inv := (Inv h0 ex ce root).
Local Abbreviation init := (runTask (TaskRunner_new ex) h0 root ce).

(** The poll unit of [runTask] is the only one there ever is. *)
Lemma poll_unit_only_at_start w :
  rtc step init w → w = init ∨ ∀ e, (e, PollUnit) ∉ pending w.
Proof.
  intros Hw. revert w Hw. apply rtc_ind_r; [by left|].
  intros w w' _ (p1 & e & u & p2 & Hp & Hrun) IH. right. intros e' Hin.
  apply (runUnit_pending_poll _ _ _ _ _ Hrun) in Hin. simpl in Hin.
  destruct IH as [->|Hno].
  - simpl in Hp. destruct p1 as [|? [|? ?]]; simplify_eq/=.
    by apply elem_of_nil in Hin.
  - apply (Hno e'). rewrite Hp. set_solver.
Qed.

Lemma done_idle w :
  rtc step init w → _done (context w) = true → pending w = [].
Proof.
  intros Hw Hd.
  pose proof (Inv_reachable _ _ _ _ Hvalid Hroot w Hblocked Hw) as HI.
  destruct (pending w) as [|[e u] p] eqn:Hp; [done|]. exfalso.
  assert ((e, u) ∈ pending w) as Hin by (rewrite Hp; left).
  destruct u as [|t|t].
  - destruct (poll_unit_only_at_start w Hw) as [->|Hno]; [done|].
    by apply (Hno e).
  - apply (done_no_running h0 ex ce root w t HI Hd).
    apply (inv_tok _ _ _ _ _ HI), elem_of_tokens. eauto.
  - apply (done_no_running h0 ex ce root w t HI Hd).
    apply (inv_tok _ _ _ _ _ HI), elem_of_tokens. eauto.
Qed.

Lemma callbacks_done w :
  rtc step init w → callbacks w ≠ [] ↔ _done (context w) = true.
Proof.
  intros Hw.
  pose proof (Inv_reachable _ _ _ _ Hvalid Hroot w Hblocked Hw) as HI.
  rewrite (inv_callbacks _ _ _ _ _ HI). by destruct (_done (context w)).
Qed.

(** Tasks from which a cycle is reached never leave Blocked. *)
Lemma before_cycle_blocked w u t :
  rtc step init w → tc (depends h0) t t → rtc (depends h0) u t →
  u < length h0 → getState (heap w) u = Some BLOCKED.
Proof.
  intros Hw Hcyc Hreach.
  pose proof (Inv_reachable _ _ _ _ Hvalid Hroot w Hblocked Hw) as HI.
  induction Hreach as [t|u d t Hud _ IH]; intros Hu.
  - apply (cycle_blocked h0 ex ce root Hvalid Hroot Hblocked w t Hw Hcyc).
  - assert (getState (heap w) d = Some BLOCKED) as Hd.
    { apply IH; [done|]. by eapply ptrs_valid_depends. }
    assert (is_Some (getState (heap w) u)) as [s Hs].
    { apply getState_is_Some. by erewrite Inv_length. }
    assert (depends (heap w) u d) as Hud'.
    { eapply depends_graph; [|done]. symmetry. apply HI. }
    destruct s; [done| |].
    + rewrite (inv_deps _ _ _ _ _ HI u (or_introl Hs) d Hud') in Hd. done.
    + rewrite (inv_deps _ _ _ _ _ HI u (or_intror Hs) d Hud') in Hd. done.
Qed.

Lemma await_steps n w w' : await n w = Some w' → rtc step w w'.
Proof.
  revert w. induction n as [|n IH]; intros w; simpl.
  - destruct (promise w); [by intros ?; simplify_eq|done].
  - destruct (promise w); [by intros ?; simplify_eq|].
    destruct (pending w) as [|[e u] p] eqn:Hp; [done|].
    destruct (runUnit e u (withPending p w)) as [w1|] eqn:Hrun; [|done].
    intros Ha. eapply rtc_l; [|by apply IH]. by exists [], e, u, p.
Qed.

Lemma await_promise n w w' : await n w = Some w' → promise w' = Some true.
Proof.
  revert w. induction n as [|n IH]; intros w; simpl.
  - destruct (promise w) as [[]|] eqn:Hp; intros ?; simplify_eq; [done|].
    unfold promise in Hp. by destruct (callbacks w').
  - destruct (promise w) as [[]|] eqn:Hp.
    + by intros ?; simplify_eq.
    + unfold promise in Hp. by destruct (callbacks w).
    + destruct (pending w) as [|[e u] p]; [done|].
      destruct (runUnit e u (withPending p w)); [|done]. apply IH.
Qed.

Lemma await_returns n w :
  acyclic h0 → rtc step init w → measure w ≤ n → is_Some (await n w).
Proof.
  intros Hac. revert w. induction n as [|n IH]; intros w Hw Hn.
  - pose proof (Inv_reachable _ _ _ _ Hvalid Hroot w Hblocked Hw) as HI.
    simpl. destruct (promise w) eqn:Hp; [done|]. exfalso.
    apply promise_unset in Hp.
    destruct (live_reachable _ _ _ _ Hvalid Hroot Hblocked w Hac Hw)
      as [Hd|[[e He]|Ht]].
    + apply (callbacks_done w Hw) in Hd. done.
    + unfold measure in Hn. destruct (pending w) as [|eu p];
        [by apply elem_of_nil in He|]. simpl in Hn. unfold weight in Hn.
      destruct (eu.2); lia.
    + unfold measure in Hn. destruct (pending w) as [|eu p]; [done|].
      simpl in Hn. unfold weight in Hn. destruct (eu.2); lia.
  - pose proof (Inv_reachable _ _ _ _ Hvalid Hroot w Hblocked Hw) as HI.
    simpl. destruct (promise w) eqn:Hp; [done|].
    apply promise_unset in Hp.
    destruct (pending w) as [|[e u] p] eqn:Hpend.
    + exfalso.
      destruct (live_reachable _ _ _ _ Hvalid Hroot Hblocked w Hac Hw)
        as [Hd|[[e He]|Ht]].
      * apply (callbacks_done w Hw) in Hd. done.
      * rewrite Hpend in He. by apply elem_of_nil in He.
      * by rewrite Hpend in Ht.
    + destruct (Inv_runUnit _ _ _ _ Hvalid Hroot w [] e u p HI Hpend)
        as (w1 & Hrun & _). simpl in Hrun. rewrite Hrun.
      assert (step w w1) as Hstep by (by exists [], e, u, p).
      apply IH; [by eapply rtc_r|].
      apply step_measure in Hstep. lia.
Qed.
End ends.

(** X1: the synchronous [runTask(task)] on an acyclic graph of blocked
    tasks.  With the oldest unit run first it returns within
    [3 * length h + 1] units; under any schedule the run cannot end with the
    promise unset; and in any world of the run in which the promise is set,
    it was set once, by the local executor, nothing is pending any more,
    every task the root reaches is Done and the assertion of the runner's
    destructor holds. *)
Theorem runTaskSync_returns_when_all_is_done (h : Heap)
    (executor local : ExecutorId) (task : TaskId) :
  allBlocked h → ptrs_valid h → acyclic h → task < length h →
  let w0 := runTask (TaskRunner_new executor) h task local in
  is_Some (runTaskSync (3 * length h + 1) (TaskRunner_new executor) h task
             local) ∧
  (∀ n w, runTaskSync n (TaskRunner_new executor) h task local = Some w →
          rtc step w0 w ∧ promise w = Some true) ∧
  (∀ w, rtc step w0 w → nf step w → promise w = Some true) ∧
  (∀ w, rtc step w0 w → promise w = Some true →
     callbacks w = [local] ∧ pending w = [] ∧ nf step w ∧
     (∀ t, rtc (depends h) task t → getState (heap w) t = Some DONE) ∧
     TaskRunner_delete (runner w) = Some ()).
Proof.
  intros Hb Hv Hac Hr w0. split_and!.
  - apply (await_returns h executor local task Hv Hr Hb); [done..|].
    unfold measure. simpl. pose proof (countState_le BLOCKED h). lia.
  - intros n w Ha. split; [by eapply await_steps|by eapply await_promise].
  - intros w Hw Hnf. apply promise_set.
    destruct (terminal _ _ _ _ Hv Hr Hb w Hac Hw Hnf) as (_ & -> & _). done.
  - intros w Hw Hp.
    pose proof (Inv_reachable _ _ _ _ Hv Hr w Hb Hw) as HI.
    apply promise_set, (callbacks_done h executor local task Hv Hr Hb w Hw)
      in Hp.
    pose proof (done_idle h executor local task Hv Hr Hb w Hw Hp) as Hidle.
    split_and!.
    + by rewrite (inv_callbacks _ _ _ _ _ HI), Hp.
    + done.
    + by apply nf_idle.
    + intros t Ht. eapply all_done; [done| |done]. by apply HI.
    + unfold TaskRunner_delete.
      rewrite (inv_counter _ _ _ _ _ HI).
      assert (countState RUNNING (heap w) = 0) as ->; [|done].
      apply countState_zero. intros t.
      by apply (done_no_running h executor local task).
Qed.

Lemma runTaskSync_returns_when_all_is_done_diamond :
  is_Some (runTaskSync 13 (TaskRunner_new 7) diamond 0 9) ∧
  (∀ w, rtc step (runTask (TaskRunner_new 7) diamond 0 9) w →
        promise w = Some true →
        callbacks w = [9] ∧ pending w = [] ∧
        TaskRunner_delete (runner w) = Some ()).
Proof.
  destruct (runTaskSync_returns_when_all_is_done diamond 7 9 0)
    as (Hret & _ & _ & Hall).
  - repeat constructor.
  - unfold ptrs_valid. simpl. repeat constructor.
  - apply ranked_acyclic. unfold ranked. simpl. repeat constructor.
  - simpl. lia.
  - split; [exact Hret|]. intros w Hw Hp.
    destruct (Hall w Hw Hp) as (? & ? & _ & _ & ?). done.
Defined.

(** X2: the synchronous [runTask(task)] when the root reaches a cycle of
    dependencies.  Every run still ends, with nothing pending; but the
    promise is never set, so the call never returns, and every task from
    which the cycle is reached is Blocked for ever. *)
Theorem runTaskSync_waits_for_ever_on_a_cycle (h : Heap)
    (executor local : ExecutorId) (task t : TaskId) :
  allBlocked h → ptrs_valid h → task < length h →
  tc (depends h) t t → rtc (depends h) task t →
  let w0 := runTask (TaskRunner_new executor) h task local in
  (∀ n, runTaskSync n (TaskRunner_new executor) h task local = None) ∧
  sn step w0 ∧
  (∀ w, rtc step w0 w →
     promise w = None ∧
     (nf step w → pending w = []) ∧
     (∀ u, u < length h → rtc (depends h) u t →
           getState (heap w) u = Some BLOCKED)).
Proof.
  intros Hb Hv Hr Hcyc Hreach w0.
  assert (∀ w, rtc step w0 w → promise w = None) as Hnever.
  { intros w Hw.
    pose proof (Inv_reachable _ _ _ _ Hv Hr w Hb Hw) as HI.
    apply promise_unset. rewrite (inv_callbacks _ _ _ _ _ HI).
    destruct (_done (context w)) eqn:Hd; [|done]. exfalso.
    apply (inv_done _ _ _ _ _ HI) in Hd.
    rewrite (before_cycle_blocked h executor local task Hv Hr Hb w task t
               Hw Hcyc Hreach Hr) in Hd. done. }
  split_and!.
  - intros n. destruct (runTaskSync n _ h task local) as [w|] eqn:Ha; [|done].
    pose proof (await_steps _ _ _ Ha) as Hw.
    apply await_promise in Ha. rewrite (Hnever w Hw) in Ha. done.
  - apply step_sn.
  - intros w Hw. split_and!; [by apply Hnever| |].
    + intros Hnf. destruct (decide (pending w = [])) as [|Hne]; [done|].
      destruct Hnf. eapply Inv_progress; [done..| |done].
      by apply Inv_reachable.
    + intros u Hu Hut.
      by apply (before_cycle_blocked h executor local task Hv Hr Hb w u t).
Qed.

Lemma runTaskSync_waits_for_ever_on_a_cycle_knot :
  (∀ n, runTaskSync n (TaskRunner_new 7) knot 0 9 = None) ∧
  (∀ w, rtc step (runTask (TaskRunner_new 7) knot 0 9) w →
        promise w = None ∧ getState (heap w) 0 = Some BLOCKED).
Proof.
  assert (depends knot 0 1) as H01 by (exists [1; 3]; split; [done|set_solver]).
  assert (depends knot 1 2) as H12 by (exists [2]; split; [done|set_solver]).
  assert (depends knot 2 1) as H21 by (exists [1]; split; [done|set_solver]).
  destruct (runTaskSync_waits_for_ever_on_a_cycle knot 7 9 0 1)
    as (Hnone & _ & Hall).
  - repeat constructor.
  - unfold ptrs_valid. simpl. repeat constructor.
  - simpl. lia.
  - eapply tc_l; [exact H12|by apply tc_once].
  - by apply rtc_once.
  - split; [exact Hnone|]. intros w Hw.
    destruct (Hall w Hw) as (Hp & _ & Hbl). split; [done|].
    apply Hbl; [simpl; lia|by apply rtc_once].
Defined.

(** X3: the invocation of the done task is the last event of a run.  The
    poll unit that [runTask] hands over is the only one there ever is (a
    world with a poll unit pending is the one [runTask] returned); and once
    the done task has been invoked, no unit is pending, so that no further
    step is possible. *)
Theorem done_task_is_the_last_event (h : Heap)
    (executor contextExecutor : ExecutorId) (root : TaskId) :
  allBlocked h → ptrs_valid h → root < length h →
  let w0 := runTask (TaskRunner_new executor) h root contextExecutor in
  ∀ w, rtc step w0 w →
    ((∃ e, (e, PollUnit) ∈ pending w) → w = w0) ∧
    (callbacks w ≠ [] →
     pending w = [] ∧ nf step w ∧ ∀ w', rtc step w w' → w' = w).
Proof.
  intros Hb Hv Hr w0 w Hw. split.
  - intros [e He].
    destruct (poll_unit_only_at_start h executor contextExecutor root Hv Hr Hb w
                Hw)
      as [?|Hno]; [done|]. by destruct (Hno e).
  - intros Hc.
    apply (callbacks_done h executor contextExecutor root Hv Hr Hb w Hw) in Hc.
    pose proof (done_idle h executor contextExecutor root Hv Hr Hb w Hw Hc)
      as Hidle.
    split_and!; [done|by apply nf_idle|].
    intros w' Hw'. symmetry. eapply rtc_nf; [done|]. by apply nf_idle.
Qed.

Lemma done_task_is_the_last_event_diamond :
  let w := mkWorld (mkTask DONE <$> [[1; 2]; [3]; [3]; []])
             (mkTaskRunner 7 0) (mkContext 0 9 true) []
             [3; 1; 2; 0] [(7, 3); (7, 1); (7, 2); (7, 0)] [9] in
  drain 20 (runTask (TaskRunner_new 7) diamond 0 9) = Some w ∧
  pending w = [] ∧ nf step w.
Proof.
  intros w.
  assert (drain 20 (runTask (TaskRunner_new 7) diamond 0 9) = Some w) as Hd
    by (vm_compute; reflexivity).
  split; [exact Hd|].
  destruct (done_task_is_the_last_event diamond 7 9 0) with (w := w)
    as (_ & Hlast).
  - repeat constructor.
  - unfold ptrs_valid. simpl. repeat constructor.
  - simpl. lia.
  - apply drain_steps with 20. exact Hd.
  - destruct Hlast as (? & ? & _); done.
Defined.

(** ** The order of dispatch and of the bodies *)

Lemma topological_nil (h : Heap) : topological h [].
Proof. intros i t d Hi. done. Qed.

Lemma topological_app (h : Heap) (l l' : list nat) :
  topological h l →
  (∀ t d, t ∈ l' → depends h t d → d ∈ l) →
  topological h (l ++ l').
Proof.
  intros Hl Hnew i t d Hi Hd.
  destruct (decide (i < length l)) as [Hlt|Hge].
  - rewrite lookup_app_l in Hi by done.
    destruct (Hl i t d Hi Hd) as (j & Hj & Hjd). exists j. split; [done|].
    rewrite lookup_app_l; [done|lia].
  - rewrite lookup_app_r in Hi by lia.
    apply list_elem_of_lookup_2 in Hi.
    destruct (list_elem_of_lookup_1 _ _ (Hnew t d Hi Hd)) as [j Hj].
    exists j.
    apply lookup_lt_Some in Hj as Hlt. split; [lia|].
    by rewrite lookup_app_l.
Qed.

Section order.
Variables (h0 : Heap) (ex ce : ExecutorId) (root : TaskId).
Hypothesis Hvalid : ptrs_valid h0.
Hypothesis Hroot : root < length h0.
Hypothesis Hblocked : allBlocked h0.
Implicit Types (t u : TaskId) (e : ExecutorId) (w : World).

Local Abbreviation Inv := (Inv h0 ex ce root).
Local Abbreviation init := (runTask (TaskRunner_new ex) h0 root ce).

Lemma pollTask_dispatched e w w' :
  Inv w → pollTask e w = Some w' →
  ∃ l, dispatched w' = dispatched w ++ l ∧
       ∀ t d, t ∈ l → depends h0 t d → d ∈ dispatched w.
Proof.
  intros HI Hp. pose proof (inv_root _ _ _ _ _ HI) as Hr.
  apply pollTask_cases in Hp
    as [[_ ->]|[(_ & _ & ->)|(_ & _ & ready & checked & Hg & Hs)]].
  - exists []. split; [by rewrite app_nil_r|]. intros t d Ht.
    by apply elem_of_nil in Ht.
  - exists []. split; [by rewrite app_nil_r|]. intros t d Ht.
    by apply elem_of_nil in Ht.
  - exists ready. split; [apply Hs|]. intros t d Ht Hd.
    destruct (ready_sound _ _ _ _ _ _ Hg Ht) as (_ & Hdone & _).
    apply (inv_disp _ _ _ _ _ HI). right. apply Hdone.
    eapply depends_graph; [|done]. symmetry. apply HI.
Qed.

Lemma step_dispatched w w' :
  Inv w → step w w' →
  ∃ l, dispatched w' = dispatched w ++ l ∧
       ∀ t d, t ∈ l → depends h0 t d → d ∈ dispatched w.
Proof.
  intros HI (p1 & e & u & p2 & Hp & Hrun).
  destruct u as [|t|t]; simpl in Hrun.
  - destruct (Inv_take_poll _ _ _ _ Hvalid Hroot w p1 e p2 HI Hp) as [-> HI'].
    by apply (pollTask_dispatched _ _ _ HI') in Hrun.
  - simplify_eq. exists []. split; [by rewrite app_nil_r|]. intros t' d Ht.
    by apply elem_of_nil in Ht.
  - destruct (Inv_complete _ _ _ _ Hvalid Hroot w p1 e t p2 HI Hp)
      as (-> & Hr & HI').
    unfold setTaskDone in Hrun. simpl in Hrun.
    destruct (getState_lookup _ _ _ Hr) as [tk Htk]. rewrite Htk in Hrun.
    by apply (pollTask_dispatched _ _ _ HI') in Hrun.
Qed.

Lemma step_ran w w' :
  Inv w → step w w' →
  ran w' = ran w ∨
  ∃ e t, ran w' = ran w ++ [(e, t)] ∧
         ∀ d, depends h0 t d → d ∈ (ran w).*2.
Proof.
  intros HI (p1 & e & u & p2 & Hp & Hrun).
  destruct u as [|t|t]; simpl in Hrun.
  - left. by apply pollTask_ran in Hrun.
  - right. simplify_eq. exists e, t. split; [done|]. intros d Hd.
    apply (inv_ran _ _ _ _ _ HI). left.
    apply (inv_deps _ _ _ _ _ HI t).
    + left. apply (inv_tok _ _ _ _ _ HI), elem_of_tokens. exists e. left.
      rewrite Hp. set_solver.
    + eapply depends_graph; [|done]. symmetry. apply HI.
  - left. unfold setTaskDone in Hrun. simpl in Hrun.
    destruct (heap w !! t); [|done]. by apply pollTask_ran in Hrun.
Qed.

Lemma logs_topological w :
  rtc step init w →
  topological h0 (dispatched w) ∧ topological h0 ((ran w).*2).
Proof.
  intros Hw.
  cut (Inv w ∧ topological h0 (dispatched w) ∧ topological h0 ((ran w).*2));
    [tauto|].
  revert w Hw. apply rtc_ind_r.
  - split; [by apply Inv_init|]. split; apply topological_nil.
  - intros w w' _ Hstep (HI & Hd & Hr).
    split; [by eapply Inv_step|]. split.
    + destruct (step_dispatched w w' HI Hstep) as (l & -> & Hl).
      by apply topological_app.
    + destruct (step_ran w w' HI Hstep) as [->|(e & t & -> & Ht)]; [done|].
      rewrite fmap_app. apply topological_app; [done|].
      intros t' d Ht'%list_elem_of_singleton. subst t'. apply Ht.
Qed.
End order.

(** X4: tasks are handed to the worker executor, and their bodies run, in
    an order that respects the dependencies: when a task is dispatched each
    of its dependencies was dispatched before it, and when its body runs the
    body of each of its dependencies has run before. *)
Theorem dispatch_and_bodies_follow_the_dependencies (h : Heap)
    (executor contextExecutor : ExecutorId) (root : TaskId) :
  allBlocked h → ptrs_valid h → root < length h →
  ∀ w, rtc step (runTask (TaskRunner_new executor) h root contextExecutor) w →
    (∀ i t d, dispatched w !! i = Some t → depends h t d →
              ∃ j, j < i ∧ dispatched w !! j = Some d) ∧
    (∀ i t d, (ran w).*2 !! i = Some t → depends h t d →
              ∃ j, j < i ∧ (ran w).*2 !! j = Some d).
Proof.
  intros Hb Hv Hr w Hw.
  apply (logs_topological h executor contextExecutor root Hv Hr Hb w Hw).
Qed.

Lemma dispatch_and_bodies_follow_the_dependencies_diamond :
  let w := mkWorld (mkTask DONE <$> [[1; 2]; [3]; [3]; []])
             (mkTaskRunner 7 0) (mkContext 0 9 true) []
             [3; 1; 2; 0] [(7, 3); (7, 1); (7, 2); (7, 0)] [9] in
  drain 20 (runTask (TaskRunner_new 7) diamond 0 9) = Some w ∧
  (∃ j, j < 1 ∧ dispatched w !! j = Some 3) ∧
  (∃ j, j < 3 ∧ (ran w).*2 !! j = Some 2).
Proof.
  intros w.
  assert (drain 20 (runTask (TaskRunner_new 7) diamond 0 9) = Some w) as Hd
    by (vm_compute; reflexivity).
  split; [exact Hd|].
  destruct (dispatch_and_bodies_follow_the_dependencies diamond 7 9 0)
    with (w := w) as (Hdisp & Hran).
  - repeat constructor.
  - unfold ptrs_valid. simpl. repeat constructor.
  - simpl. lia.
  - apply drain_steps with 20. exact Hd.
  - split.
    + apply (Hdisp 1 1 3); [reflexivity|]. exists [3]. split; [done|set_solver].
    + apply (Hran 3 0 2); [reflexivity|]. exists [1; 2].
      split; [done|set_solver].
Defined.

(** ** What a poll leaves behind *)

(** After the ready tasks have started, a traversal finds nothing ready. *)
Lemma started_nothing_ready fuel fuel' (root : TaskId) w w'
    (l l' : list nat) (c c' : gset nat) :
  getReadyTasks fuel (heap w) root ([], ∅) = Some (l, c) →
  started l w w' →
  getReadyTasks fuel' (heap w') root ([], ∅) = Some (l', c') →
  l' = [].
Proof.
  intros Hg Hs Hg'.
  apply getReadyTasks_top in Hg as (_ & Hc & Hl).
  apply getReadyTasks_top in Hg' as (_ & Hc' & Hl').
  assert (∀ x, getState (heap w') x = Some BLOCKED →
               (x ∉ l) ∧ getState (heap w) x = Some BLOCKED) as Hbl.
  { intros x. rewrite (st_state _ _ _ Hs). by case_decide. }
  assert (∀ x, getState (heap w') x = Some DONE →
               getState (heap w) x = Some DONE) as Hdn.
  { intros x. rewrite (st_state _ _ _ Hs). by case_decide. }
  assert (∀ a b, depends (heap w') a b → depends (heap w) a b) as Hdep.
  { intros a b. apply depends_graph. apply Hs. }
  assert (∀ a b, depends (heap w) a b → depends (heap w') a b) as Hdep'.
  { intros a b. apply depends_graph. symmetry. apply Hs. }
  destruct l' as [|u l']; [done|]. exfalso.
  destruct (proj1 (Hl' u)) as [[Hroot Hreach]%Hc' Hdone]; [left|].
  assert (getState (heap w') u = Some BLOCKED) as Hu
    by (by eapply bdep_blocked).
  destruct (Hbl u Hu) as [Hnl _]. apply Hnl, Hl. split.
  - apply Hc. split; [by apply Hbl|].
    eapply rtc_subrel; [|exact Hreach].
    intros a b [Hab Hb]. split; [by apply Hdep|by apply Hbl].
  - intros d Hd. apply Hdn, Hdone, Hdep', Hd.
Qed.

(** X5: a poll right after a poll does nothing: whatever was ready has been
    started, so the second poll returns the world unchanged.  Polls the
    run does not need are harmless. *)
Theorem pollTask_twice_is_pollTask_once (e e' : ExecutorId) (w w' : World) :
  ptrs_valid (heap w) → _rootTask (context w) < length (heap w) →
  pollTask e w = Some w' → pollTask e' w' = Some w'.
Proof.
  intros Hv Hr Hp.
  destruct (pollTask_cases _ _ _ Hp)
    as [[Hd ->]|[(Hnd & Hd & ->)|(Hnd & Hroot & ready & checked & Hg & Hs)]].
  - unfold pollTask. by rewrite Hd.
  - done.
  - unfold pollTask. rewrite (st_context _ _ _ Hs), Hnd.
    assert (graph (heap w') = graph (heap w)) as HG by apply Hs.
    assert (length (heap w') = length (heap w)) as HL by by apply graph_length.
    destruct (getReadyTasks_enough_fuel (heap w') (_rootTask (context w)))
      as [[ready' checked'] Hg'].
    { eapply ptrs_valid_graph; [|done]. done. }
    { by rewrite HL. }
    rewrite Hg'.
    rewrite (started_nothing_ready _ _ _ _ _ _ _ _ _ Hg Hs Hg'). simpl.
    rewrite (st_state _ _ _ Hs). case_decide; [done|].
    by destruct Hroot as [-> | ->].
Qed.

Lemma pollTask_twice_is_pollTask_once_diamond :
  ∃ w', pollTask 9 (withPending [] (runTask (TaskRunner_new 7) diamond 0 9))
          = Some w' ∧
        dispatched w' = [3] ∧ pollTask 9 w' = Some w'.
Proof.
  eexists. split; [vm_compute; reflexivity|]. split; [reflexivity|].
  apply (pollTask_twice_is_pollTask_once 9 9
           (withPending [] (runTask (TaskRunner_new 7) diamond 0 9))).
  - unfold ptrs_valid. simpl. repeat constructor.
  - simpl. lia.
  - vm_compute. reflexivity.
Defined.

Section eager.
Variables (h0 : Heap) (ex ce : ExecutorId) (root : TaskId).
Hypothesis Hvalid : ptrs_valid h0.
Hypothesis Hroot : root < length h0.
Hypothesis Hblocked : allBlocked h0.
Implicit Types (t u : TaskId) (e : ExecutorId) (w : World).

Local Abbreviation Inv := (Inv h0 ex ce root).
Local Abbreviation init := (runTask (TaskRunner_new ex) h0 root ce).

(** A traversal from the root finds nothing ready. *)
Local Abbreviation nothing_ready w :=
  (∀ fuel l (c : gset nat),
     getReadyTasks fuel (heap w) root ([], ∅) = Some (l, c) → l = []).

Lemma pollTask_nothing_ready e w w' :
  Inv w → pollTask e w = Some w' → nothing_ready w'.
Proof.
  intros HI Hp fuel l c Hg. pose proof (inv_root _ _ _ _ _ HI) as Hr.
  apply pollTask_cases in Hp
    as [[Hd ->]|[(Hnd & Hd & ->)|(Hnd & _ & ready & checked & Hg0 & Hs)]].
  - apply (inv_done _ _ _ _ _ HI) in Hd.
    eapply getReadyTasks_skip in Hg; [by simplify_eq|]. left. congruence.
  - rewrite Hr in Hd. simpl in Hg.
    eapply getReadyTasks_skip in Hg; [by simplify_eq|]. left. congruence.
  - rewrite Hr in Hg0.
    exact (started_nothing_ready _ _ _ _ _ _ _ _ _ Hg0 Hs Hg).
Qed.

Lemma nothing_ready_after_start w :
  rtc step init w → w = init ∨ nothing_ready w.
Proof.
  intros Hw.
  cut (Inv w ∧ (w = init ∨ nothing_ready w)); [tauto|].
  revert w Hw. apply rtc_ind_r.
  - split; [by apply Inv_init|by left].
  - intros w w' _ Hstep [HI IH]. split; [by eapply Inv_step|]. right.
    destruct Hstep as (p1 & e & u & p2 & Hp & Hrun).
    destruct u as [|t|t]; simpl in Hrun.
    + destruct (Inv_take_poll _ _ _ _ Hvalid Hroot w p1 e p2 HI Hp)
        as [-> HI'].
      by eapply pollTask_nothing_ready.
    + simplify_eq. simpl. destruct IH as [->|IH]; [|done].
      simpl in Hp. destruct p1 as [|? [|? ?]]; simplify_eq/=.
    + destruct (Inv_complete _ _ _ _ Hvalid Hroot w p1 e t p2 HI Hp)
        as (-> & Hr & HI').
      unfold setTaskDone in Hrun. simpl in Hrun.
      destruct (getState_lookup _ _ _ Hr) as [tk Htk]. rewrite Htk in Hrun.
      by eapply pollTask_nothing_ready.
Qed.

(** In a run, a blocked task that the root reaches is reached through
    blocked tasks only. *)
Lemma blocked_path w t :
  Inv w → rtc (depends h0) root t → getState (heap w) t = Some BLOCKED →
  getState (heap w) root = Some BLOCKED ∧ rtc (bdep (heap w)) root t.
Proof.
  intros HI Hreach. revert t Hreach.
  apply (rtc_ind_r (λ t, getState (heap w) t = Some BLOCKED →
           getState (heap w) root = Some BLOCKED ∧ rtc (bdep (heap w)) root t));
    [done|].
  intros u t Hru Hut IH Ht.
  assert (depends (heap w) u t) as Hut'.
  { eapply depends_graph; [|done]. symmetry. apply HI. }
  assert (is_Some (getState (heap w) u)) as [s Hs].
  { apply getState_is_Some. erewrite Inv_length by done.
    by eapply depends_source_valid. }
  destruct s.
  - destruct (IH Hs) as [Hr Hpath]. split; [done|].
    eapply rtc_r; [done|]. by split.
  - rewrite (inv_deps _ _ _ _ _ HI u (or_introl Hs) t Hut') in Ht. done.
  - rewrite (inv_deps _ _ _ _ _ HI u (or_intror Hs) t Hut') in Ht. done.
Qed.

Lemma no_ready_task_waits w t :
  rtc step init w → w ≠ init →
  rtc (depends h0) root t → getState (heap w) t = Some BLOCKED →
  ¬ depsDone (heap w) t.
Proof.
  intros Hw Hne Hreach Ht Hdone.
  pose proof (Inv_reachable _ _ _ _ Hvalid Hroot w Hblocked Hw) as HI.
  destruct (nothing_ready_after_start w Hw) as [?|Hnone]; [done|].
  destruct (blocked_path w t HI Hreach Ht) as [Hr Hpath].
  destruct (getReadyTasks_enough_fuel (heap w) root) as [[l c] Hg].
  { by eapply Inv_ptrs_valid. }
  { by erewrite Inv_length. }
  pose proof (Hnone _ _ _ Hg) as ->.
  apply getReadyTasks_top in Hg as (_ & Hc & Hl).
  assert (t ∈ []) as Hin; [|by apply elem_of_nil in Hin].
  apply Hl. split; [|done]. by apply Hc.
Qed.
End eager.

(** X6: no ready task is left waiting.  In every world of a run after the
    first poll, a task that the root reaches and that is still Blocked has
    a dependency that is not Done: whatever could start has been handed to
    the worker executor by the poll that found it. *)
Theorem no_ready_task_is_left_waiting (h : Heap)
    (executor contextExecutor : ExecutorId) (root : TaskId) :
  allBlocked h → ptrs_valid h → root < length h →
  let w0 := runTask (TaskRunner_new executor) h root contextExecutor in
  ∀ w t, rtc step w0 w → w ≠ w0 →
    rtc (depends h) root t → getState (heap w) t = Some BLOCKED →
    ¬ depsDone (heap w) t.
Proof.
  intros Hb Hv Hr w0 w t.
  by apply (no_ready_task_waits h executor contextExecutor root).
Qed.

Lemma no_ready_task_is_left_waiting_diamond :
  ∃ w, step (runTask (TaskRunner_new 7) diamond 0 9) w ∧
       getState (heap w) 1 = Some BLOCKED ∧ ¬ depsDone (heap w) 1.
Proof.
  eexists. split; [|split].
  - exists [], 9, PollUnit, []. split; [reflexivity|]. vm_compute. reflexivity.
  - reflexivity.
  - apply (no_ready_task_is_left_waiting diamond 7 9 0).
    + repeat constructor.
    + unfold ptrs_valid. simpl. repeat constructor.
    + simpl. lia.
    + apply rtc_once. exists [], 9, PollUnit, [].
      split; [reflexivity|]. vm_compute. reflexivity.
    + intros Heq. apply (f_equal dispatched) in Heq. by vm_compute in Heq.
    + apply rtc_once. exists [1; 2]. split; [done|set_solver].
    + reflexivity.
Defined.

(** X7: the assertion of [internalRunTask] holds for every task of a list
    exactly when the list names no task twice and every task in it is
    Blocked: [internalRunTasks] fails on a task that is Running or Done and
    on the second occurrence of a task. *)
Theorem internalRunTasks_succeeds_iff (l : list TaskId) (w : World) :
  is_Some (internalRunTasks l w) ↔
  NoDup l ∧ ∀ t, t ∈ l → getState (heap w) t = Some BLOCKED.
Proof.
  split.
  - intros [w' Hrun]. apply internalRunTasks_started in Hrun.
    split; apply Hrun.
  - intros [Hnd Hb]. by apply internalRunTasks_total.
Qed.

Lemma internalRunTasks_succeeds_iff_example :
  internalRunTasks [3; 3] (runTask (TaskRunner_new 7) diamond 0 9) = None ∧
  is_Some (internalRunTasks [3] (runTask (TaskRunner_new 7) diamond 0 9)).
Proof.
  split.
  - destruct (internalRunTasks [3; 3] _) as [w'|] eqn:Hrun; [|done].
    destruct (proj1 (internalRunTasks_succeeds_iff [3; 3]
                       (runTask (TaskRunner_new 7) diamond 0 9)))
      as [Hnd _]; [by rewrite Hrun|].
    apply NoDup_cons in Hnd as [Hnot _]. destruct Hnot. left.
  - apply internalRunTasks_succeeds_iff. split.
    + repeat constructor. set_solver.
    + intros t Ht%list_elem_of_singleton. by subst t.
Defined.

(** X8: in a run on an arena of fewer than 2^32 tasks, the assertion of the
    destructor holds exactly when no task is Running, that is, when no body
    and no completion is in flight; destroying the runner at any other
    moment fails. *)
Theorem destructor_asserts_nothing_in_flight (h : Heap)
    (executor contextExecutor : ExecutorId) (root : TaskId) :
  allBlocked h → ptrs_valid h → root < length h →
  (Z.of_nat (length h) < 2 ^ 32)%Z →
  ∀ w, rtc step (runTask (TaskRunner_new executor) h root contextExecutor) w →
    (TaskRunner_delete (runner w) = Some () ↔
     ∀ t, getState (heap w) t ≠ Some RUNNING) ∧
    (TaskRunner_delete (runner w) = Some () ↔ tokens (pending w) = []) ∧
    (TaskRunner_delete (runner w) = None ↔
     ∃ t, getState (heap w) t = Some RUNNING).
Proof.
  intros Hb Hv Hr Hsmall w Hw.
  pose proof (Inv_reachable _ _ _ _ Hv Hr w Hb Hw) as HI.
  assert (_runningTasks (runner w) = Z.of_nat (countState RUNNING (heap w)))
    as Hc.
  { rewrite (inv_counter _ _ _ _ _ HI). apply wrap32_small.
    pose proof (countState_le RUNNING (heap w)) as Hle.
    erewrite Inv_length in Hle by done. lia. }
  assert (TaskRunner_delete (runner w) = Some () ↔
          ∀ t, getState (heap w) t ≠ Some RUNNING) as Hiff.
  { unfold TaskRunner_delete. rewrite Hc, <-countState_zero.
    case_decide; split; try done; intros; lia. }
  split_and!.
  - done.
  - rewrite Hiff. split.
    + intros Hno. destruct (tokens (pending w)) as [|t l] eqn:Ht; [done|].
      destruct (Hno t). apply (inv_tok _ _ _ _ _ HI). rewrite Ht. left.
    + intros Hnil t Ht. apply (inv_tok _ _ _ _ _ HI) in Ht.
      rewrite Hnil in Ht. by apply elem_of_nil in Ht.
  - split.
    + intros Hnone.
      destruct (tokens (pending w)) as [|t l] eqn:Ht.
      * assert (TaskRunner_delete (runner w) = Some ()) as Hsome.
        { apply Hiff. intros t Hrun. apply (inv_tok _ _ _ _ _ HI) in Hrun.
          rewrite Ht in Hrun. by apply elem_of_nil in Hrun. }
        congruence.
      * exists t. apply (inv_tok _ _ _ _ _ HI). rewrite Ht. left.
    + intros [t Ht]. destruct (TaskRunner_delete (runner w)) as [[]|];
        [|done]. by destruct (proj1 Hiff eq_refl t).
Qed.

Lemma destructor_asserts_nothing_in_flight_diamond :
  ∃ w, step (runTask (TaskRunner_new 7) diamond 0 9) w ∧
       TaskRunner_delete (runner w) = None ∧
       getState (heap w) 3 = Some RUNNING.
Proof.
  eexists. split; [|split].
  - exists [], 9, PollUnit, []. split; [reflexivity|]. vm_compute. reflexivity.
  - apply (destructor_asserts_nothing_in_flight diamond 7 9 0).
    + repeat constructor.
    + unfold ptrs_valid. simpl. repeat constructor.
    + simpl. lia.
    + simpl. lia.
    + apply rtc_once. exists [], 9, PollUnit, [].
      split; [reflexivity|]. vm_compute. reflexivity.
    + exists 3. reflexivity.
  - reflexivity.
Defined.

(** ** What a run leaves alone, and what it keeps in flight *)

(** X9: a run only changes the state of tasks that the root reaches.  The
    arena keeps its size, every task keeps its dependencies, and a task
    that the root does not reach stays as it was and is never handed to the
    worker executor. *)
Theorem run_touches_only_what_the_root_reaches (h : Heap)
    (executor contextExecutor : ExecutorId) (root : TaskId) :
  allBlocked h → ptrs_valid h → root < length h →
  ∀ w, rtc step (runTask (TaskRunner_new executor) h root contextExecutor) w →
    length (heap w) = length h ∧
    (∀ t, getDependencies (heap w) t = getDependencies h t) ∧
    (∀ t, ¬ rtc (depends h) root t →
          heap w !! t = h !! t ∧ t ∉ dispatched w).
Proof.
  intros Hb Hv Hr w Hw.
  pose proof (Inv_reachable _ _ _ _ Hv Hr w Hb Hw) as HI.
  pose proof (inv_graph _ _ _ _ _ HI) as HG.
  assert (∀ t, getDependencies (heap w) t = getDependencies h t) as Hdeps.
  { intros t. by rewrite !getDependencies_graph, HG. }
  split_and!; [by apply graph_length|done|].
  intros t Hnot.
  assert (¬ (getState (heap w) t = Some RUNNING ∨
             getState (heap w) t = Some DONE)) as Huntouched.
  { intros Ht. by apply Hnot, (inv_touched _ _ _ _ _ HI). }
  split; [|by rewrite (inv_disp _ _ _ _ _ HI)].
  specialize (Hdeps t). unfold getDependencies, getState in *.
  destruct (heap w !! t) as [[s ds]|] eqn:Hwt, (h !! t) as [[s0 ds0]|] eqn:Hht;
    simplify_eq/=; [|done].
  assert (s0 = BLOCKED) as ->.
  { unfold allBlocked in Hb. rewrite Forall_forall in Hb.
    apply (Hb (mkTask s0 ds0)). by eapply list_elem_of_lookup_2. }
  destruct s; [done|destruct Huntouched; eauto..].
Qed.

Lemma run_touches_only_what_the_root_reaches_diamond :
  ∃ w, step (runTask (TaskRunner_new 7) diamond 1 9) w ∧
       dispatched w = [3] ∧
       heap w !! 2 = diamond !! 2 ∧ 2 ∉ dispatched w.
Proof.
  assert (∀ y, depends diamond 1 y → y = 3) as H1.
  { intros y (ds & Hds & Hy). simplify_eq/=. set_solver. }
  assert (∀ y, ¬ depends diamond 3 y) as H3.
  { intros y (ds & Hds & Hy). simplify_eq/=. set_solver. }
  assert (¬ rtc (depends diamond) 1 2) as Hnot.
  { intros [?|(y & Hy & H')]%rtc_inv; [done|]. apply H1 in Hy as ->.
    apply rtc_inv in H' as [?|(y & Hy & _)]; [done|]. by apply H3 in Hy. }
  eexists. split; [|split].
  - exists [], 9, PollUnit, []. split; [reflexivity|]. vm_compute. reflexivity.
  - reflexivity.
  - eapply (run_touches_only_what_the_root_reaches diamond 7 9 1).
    + repeat constructor.
    + unfold ptrs_valid. simpl. repeat constructor.
    + simpl. lia.
    + apply rtc_once. exists [], 9, PollUnit, [].
      split; [reflexivity|]. vm_compute. reflexivity.
    + exact Hnot.
Defined.

Lemma tokens_body_done (p : list (nat * Unit)) e e' (t : TaskId) :
  NoDup (tokens p) → (e, BodyUnit t) ∈ p → (e', DoneUnit t) ∈ p → False.
Proof.
  intros Hnd Hb Hd.
  apply list_elem_of_split in Hb as (p1 & p2 & ->).
  rewrite tokens_app, tokens_body in Hnd.
  apply NoDup_app in Hnd as (_ & H12 & [H2 _]%NoDup_cons).
  apply elem_of_app in Hd as [Hd|Hd].
  - apply (H12 t); [|left]. apply elem_of_tokens. eauto.
  - apply elem_of_cons in Hd as [?|Hd]; [done|].
    apply H2, elem_of_tokens. eauto.
Qed.

(** X10: every Running task has exactly one unit in flight, and no other
    task has one.  The tasks named by the pending bodies and completions
    are the Running tasks, each named once; in particular a task never has
    its body and its completion pending together. *)
Theorem one_unit_in_flight_per_running_task (h : Heap)
    (executor contextExecutor : ExecutorId) (root : TaskId) :
  allBlocked h → ptrs_valid h → root < length h →
  ∀ w, rtc step (runTask (TaskRunner_new executor) h root contextExecutor) w →
    NoDup (tokens (pending w)) ∧
    (∀ t, getState (heap w) t = Some RUNNING ↔
          ∃ e, (e, BodyUnit t) ∈ pending w ∨ (e, DoneUnit t) ∈ pending w) ∧
    (∀ e e' t, (e, BodyUnit t) ∈ pending w → (e', DoneUnit t) ∉ pending w).
Proof.
  intros Hb Hv Hr w Hw.
  pose proof (Inv_reachable _ _ _ _ Hv Hr w Hb Hw) as HI.
  split_and!.
  - apply HI.
  - intros t. by rewrite <-(inv_tok _ _ _ _ _ HI), elem_of_tokens.
  - intros e e' t Hbody Hdone.
    by apply (tokens_body_done (pending w) e e' t (inv_tok_nodup _ _ _ _ _ HI)).
Qed.

Lemma one_unit_in_flight_per_running_task_diamond :
  ∃ w, step (runTask (TaskRunner_new 7) diamond 0 9) w ∧
       pending w = [(7, BodyUnit 3)] ∧
       NoDup (tokens (pending w)) ∧
       (getState (heap w) 3 = Some RUNNING ↔
        ∃ e, (e, BodyUnit 3) ∈ pending w ∨ (e, DoneUnit 3) ∈ pending w).
Proof.
  eexists. split; [|split].
  - exists [], 9, PollUnit, []. split; [reflexivity|]. vm_compute. reflexivity.
  - reflexivity.
  - edestruct (one_unit_in_flight_per_running_task diamond 7 9 0)
      as (Hnd & Hrun & _).
    + repeat constructor.
    + unfold ptrs_valid. simpl. repeat constructor.
    + simpl. lia.
    + apply rtc_once. exists [], 9, PollUnit, [].
      split; [reflexivity|]. vm_compute. reflexivity.
    + split; [exact Hnd|]. apply Hrun.
Defined.

(** ** The length of a run *)

Lemma pollTask_unitsLeft e w w' :
  pollTask e w = Some w' →
  unitsLeft w' = unitsLeft w ∧
  length (dispatched w') + countState BLOCKED (heap w')
    = length (dispatched w) + countState BLOCKED (heap w).
Proof.
  intros [[_ ->]|[(_ & _ & ->)|(_ & _ & ready & checked & _ & Hs)]]%pollTask_cases;
    [done..|].
  unfold unitsLeft. rewrite (st_pending _ _ _ Hs), (st_dispatched _ _ _ Hs).
  rewrite sum_list_with_app, weight_bodies, length_app.
  pose proof (st_blocked_count _ _ _ Hs). lia.
Qed.

Lemma countState_all_blocked (h : Heap) :
  allBlocked h → countState BLOCKED h = length h.
Proof.
  unfold countState, allBlocked. induction 1 as [|tk h Htk _ IH]; [done|].
  rewrite filter_cons. rewrite decide_True by done. simpl. by rewrite IH.
Qed.

Section counting.
Variables (h0 : Heap) (ex ce : ExecutorId) (root : TaskId).
Hypothesis Hvalid : ptrs_valid h0.
Hypothesis Hroot : root < length h0.
Hypothesis Hblocked : allBlocked h0.
Implicit Types (t u : TaskId) (e : ExecutorId) (w : World).

Local Abbreviation Inv := (Inv h0 ex ce root).
Local Abbreviation init := (runTask (TaskRunner_new ex) h0 root ce).

Lemma step_unitsLeft w w' :
  Inv w → step w w' →
  unitsLeft w' + 1 = unitsLeft w ∧
  length (dispatched w') + countState BLOCKED (heap w')
    = length (dispatched w) + countState BLOCKED (heap w).
Proof.
  intros HI (p1 & e & u & p2 & Hp & Hrun).
  assert (unitsLeft (withPending (p1 ++ p2) w) + weight (e, u) = unitsLeft w)
    as Hm.
  { unfold unitsLeft. rewrite Hp. simpl. rewrite !sum_list_with_app. simpl.
    lia. }
  destruct u as [|t|t]; simpl in Hrun.
  - apply pollTask_unitsLeft in Hrun as [Hu Hd]. simpl in Hd.
    unfold weight in Hm. simpl in Hm. lia.
  - simplify_eq. unfold weight in Hm. simpl in Hm. split; [|done].
    unfold unitsLeft in *. simpl in *. rewrite sum_list_with_app. simpl. lia.
  - destruct (Inv_complete _ _ _ _ Hvalid Hroot w p1 e t p2 HI Hp)
      as (-> & Hr & _).
    unfold setTaskDone in Hrun. simpl in Hrun.
    destruct (getState_lookup _ _ _ Hr) as [tk Htk]. rewrite Htk in Hrun.
    apply pollTask_unitsLeft in Hrun as [Hu Hd]. simpl in Hd.
    unfold weight in Hm. simpl in Hm.
    pose proof (countState_alter (heap w) t RUNNING DONE BLOCKED Hr) as Hc.
    unfold unitsLeft in *. simpl in *. unfold setDone in *.
    repeat case_decide; try done. lia.
Qed.

Lemma nsteps_unitsLeft k w :
  nsteps step k init w →
  Inv w ∧ k + unitsLeft w = 2 * length h0 + 1 ∧
  length (dispatched w) + countState BLOCKED (heap w) = length h0.
Proof.
  pose proof (countState_all_blocked h0 Hblocked) as Hall.
  revert w. induction k as [|k IH]; intros w Hk.
  - inversion Hk; subst. split; [by apply Inv_init|].
    unfold unitsLeft. simpl. unfold weight. simpl. lia.
  - apply nsteps_inv_r in Hk as (w1 & Hk & Hstep).
    destruct (IH w1 Hk) as (HI & Hu & Hd).
    destruct (step_unitsLeft w1 w HI Hstep) as [Hu' Hd'].
    split; [by eapply Inv_step|]. lia.
Qed.
End counting.

(** X11: the length of a run.  After [k] steps from [runTask], [k] plus
    the pending units (a body counted twice, for the completion it will hand
    over) is one more than twice the number of tasks dispatched so far: one
    poll unit, and a body and a completion for each dispatched task.  So no
    run has more than [2 * length h + 1] steps, and a run that has nothing
    pending took exactly one step more than twice the number of tasks it
    dispatched. *)
Theorem run_length_is_counted (h : Heap)
    (executor contextExecutor : ExecutorId) (root : TaskId) :
  allBlocked h → ptrs_valid h → root < length h →
  ∀ k w,
    nsteps step k (runTask (TaskRunner_new executor) h root contextExecutor) w →
    k + sum_list_with weight (pending w) = 2 * length (dispatched w) + 1 ∧
    k ≤ 2 * length h + 1 ∧
    (pending w = [] → k = 2 * length (dispatched w) + 1).
Proof.
  intros Hb Hv Hr k w Hk.
  destruct (nsteps_unitsLeft h executor contextExecutor root Hv Hr Hb k w Hk)
    as (_ & Hu & Hd).
  unfold unitsLeft in Hu.
  split_and!; [lia..|]. intros Hp. rewrite Hp in Hu. simpl in Hu. lia.
Qed.

Lemma run_length_is_counted_diamond :
  let w := mkWorld [blocked [1; 2]; blocked [3]; blocked [3]; mkTask RUNNING []]
             (mkTaskRunner 7 1) (mkContext 0 9 false) [(9, DoneUnit 3)]
             [3] [(7, 3)] [] in
  nsteps step 2 (runTask (TaskRunner_new 7) diamond 0 9) w ∧
  2 + sum_list_with weight (pending w) = 2 * length (dispatched w) + 1.
Proof.
  intros w.
  assert (nsteps step 2 (runTask (TaskRunner_new 7) diamond 0 9) w) as Hk.
  { eapply nsteps_l; [|eapply nsteps_once].
    - exists [], 9, PollUnit, []. split; [reflexivity|].
      vm_compute. reflexivity.
    - exists [], 7, (BodyUnit 3), []. split; [reflexivity|].
      vm_compute. reflexivity. }
  split; [exact Hk|].
  destruct (run_length_is_counted diamond 7 9 0) with (k := 2) (w := w)
    as (Hcount & _).
  - repeat constructor.
  - unfold ptrs_valid. simpl. repeat constructor.
  - simpl. lia.
  - exact Hk.
  - exact Hcount.
Defined.

(** ** The outcome does not depend on the schedule *)

Section outcome.
Variables (h0 : Heap) (ex ce : ExecutorId) (root : TaskId).
Hypothesis Hvalid : ptrs_valid h0.
Hypothesis Hroot : root < length h0.
Hypothesis Hblocked : allBlocked h0.
Hypothesis Hacyclic : acyclic h0.
Implicit Types (t u : TaskId) (e : ExecutorId) (w : World).

Local Abbreviation Inv := (Inv h0 ex ce root).
Local Abbreviation init := (runTask (TaskRunner_new ex) h0 root ce).

(** The states at the end: Done for what the root reaches, Blocked for the
    rest. *)
Lemma final_state w t s :
  rtc step init w → nf step w → getState (heap w) t = Some s →
  (s = DONE ∧ rtc (depends h0) root t) ∨
  (s = BLOCKED ∧ ¬ rtc (depends h0) root t).
Proof.
  intros Hw Hnf Hs.
  pose proof (Inv_reachable _ _ _ _ Hvalid Hroot w Hblocked Hw) as HI.
  destruct (terminal _ _ _ _ Hvalid Hroot Hblocked w Hacyclic Hw Hnf)
    as (Hp & _ & Hdone).
  destruct s.
  - right. split; [done|]. intros Hreach. rewrite (Hdone t Hreach) in Hs. done.
  - destruct (idle_no_running h0 ex ce root w t HI Hp Hs).
  - left. split; [done|]. apply (inv_touched _ _ _ _ _ HI). by right.
Qed.

Lemma final_heap w1 w2 :
  rtc step init w1 → nf step w1 → rtc step init w2 → nf step w2 →
  heap w1 = heap w2.
Proof.
  intros Hw1 Hnf1 Hw2 Hnf2.
  pose proof (Inv_reachable _ _ _ _ Hvalid Hroot w1 Hblocked Hw1) as HI1.
  pose proof (Inv_reachable _ _ _ _ Hvalid Hroot w2 Hblocked Hw2) as HI2.
  assert (graph (heap w1) = graph (heap w2)) as HG.
  { by rewrite (inv_graph _ _ _ _ _ HI1), (inv_graph _ _ _ _ _ HI2). }
  apply list_eq. intros t.
  assert (_dependencies <$> heap w1 !! t = _dependencies <$> heap w2 !! t)
    as Hdeps.
  { rewrite <-!list_lookup_fmap. unfold graph in HG. by rewrite HG. }
  destruct (heap w1 !! t) as [[s1 d1]|] eqn:H1,
           (heap w2 !! t) as [[s2 d2]|] eqn:H2; simplify_eq/=; [|done].
  assert (getState (heap w1) t = Some s1) as Hs1
    by (unfold getState; by rewrite H1).
  assert (getState (heap w2) t = Some s2) as Hs2
    by (unfold getState; by rewrite H2).
  destruct (final_state w1 t s1 Hw1 Hnf1 Hs1) as [[-> ?]|[-> ?]],
           (final_state w2 t s2 Hw2 Hnf2 Hs2) as [[-> ?]|[-> ?]]; done.
Qed.
End outcome.

(** X12: the outcome of a run does not depend on the schedule.  Whatever
    the order in which the executors take their units, the runs on an
    acyclic graph of blocked tasks end in worlds with the same arena (Done
    for the tasks the root reaches, Blocked for the others), the same
    runner and context, nothing pending and one invocation of the done
    task; the tasks dispatched, and those whose bodies ran, are the same up
    to their order. *)
Theorem outcome_does_not_depend_on_the_schedule (h : Heap)
    (executor contextExecutor : ExecutorId) (root : TaskId) :
  allBlocked h → ptrs_valid h → acyclic h → root < length h →
  let w0 := runTask (TaskRunner_new executor) h root contextExecutor in
  ∀ w1 w2, rtc step w0 w1 → nf step w1 → rtc step w0 w2 → nf step w2 →
    heap w1 = heap w2 ∧ runner w1 = runner w2 ∧ context w1 = context w2 ∧
    pending w1 = pending w2 ∧ callbacks w1 = callbacks w2 ∧
    dispatched w1 ≡ₚ dispatched w2 ∧ (ran w1).*2 ≡ₚ (ran w2).*2 ∧
    (∀ t s, getState (heap w1) t = Some s →
       (s = DONE ∧ rtc (depends h) root t) ∨
       (s = BLOCKED ∧ ¬ rtc (depends h) root t)).
Proof.
  intros Hb Hv Hac Hr w0 w1 w2 Hw1 Hnf1 Hw2 Hnf2.
  pose proof (Inv_reachable _ _ _ _ Hv Hr w1 Hb Hw1) as HI1.
  pose proof (Inv_reachable _ _ _ _ Hv Hr w2 Hb Hw2) as HI2.
  pose proof (final_heap h executor contextExecutor root Hv Hr Hb Hac
                w1 w2 Hw1 Hnf1 Hw2 Hnf2) as Hheap.
  destruct (terminal _ _ _ _ Hv Hr Hb w1 Hac Hw1 Hnf1) as (Hp1 & Hc1 & _).
  destruct (terminal _ _ _ _ Hv Hr Hb w2 Hac Hw2 Hnf2) as (Hp2 & Hc2 & _).
  assert (∀ w, Inv h executor contextExecutor root w →
               callbacks w = [contextExecutor] →
               context w = mkContext root contextExecutor true) as Hctx.
  { intros w HI Hc. pose proof (inv_callbacks _ _ _ _ _ HI) as Hcb.
    pose proof (inv_root _ _ _ _ _ HI). pose proof (inv_cexecutor _ _ _ _ _ HI).
    destruct (context w) as [r c []]; simplify_eq/=; [done|].
    rewrite Hc in Hcb. done. }
  split_and!.
  - done.
  - pose proof (inv_counter _ _ _ _ _ HI1) as C1.
    pose proof (inv_counter _ _ _ _ _ HI2) as C2.
    pose proof (inv_executor _ _ _ _ _ HI1) as E1.
    pose proof (inv_executor _ _ _ _ _ HI2) as E2.
    rewrite Hheap in C1.
    destruct (runner w1), (runner w2); by simplify_eq/=.
  - by rewrite (Hctx w1), (Hctx w2).
  - by rewrite Hp1, Hp2.
  - by rewrite Hc1, Hc2.
  - apply NoDup_Permutation; [apply HI1|apply HI2|].
    intros t. rewrite (inv_disp _ _ _ _ _ HI1), (inv_disp _ _ _ _ _ HI2).
    by rewrite Hheap.
  - apply NoDup_Permutation; [apply HI1|apply HI2|].
    intros t. rewrite (inv_ran _ _ _ _ _ HI1), (inv_ran _ _ _ _ _ HI2).
    rewrite Hheap, Hp1, Hp2. done.
  - intros t s.
    by apply (final_state h executor contextExecutor root Hv Hr Hb Hac).
Qed.

Lemma outcome_does_not_depend_on_the_schedule_diamond :
  let w1 := mkWorld (mkTask DONE <$> [[1; 2]; [3]; [3]; []])
              (mkTaskRunner 7 0) (mkContext 0 9 true) []
              [3; 1; 2; 0] [(7, 3); (7, 1); (7, 2); (7, 0)] [9] in
  let w2 := mkWorld (mkTask DONE <$> [[1; 2]; [3]; [3]; []])
              (mkTaskRunner 7 0) (mkContext 0 9 true) []
              [3; 1; 2; 0] [(7, 3); (7, 2); (7, 1); (7, 0)] [9] in
  rtc step (runTask (TaskRunner_new 7) diamond 0 9) w2 ∧
  ran w1 ≠ ran w2 ∧
  heap w1 = heap w2 ∧ (ran w1).*2 ≡ₚ (ran w2).*2.
Proof.
  intros w1 w2.
  assert (rtc step (runTask (TaskRunner_new 7) diamond 0 9) w1) as H1.
  { apply drain_steps with 20. vm_compute. reflexivity. }
  assert (rtc step (runTask (TaskRunner_new 7) diamond 0 9) w2) as H2.
  { eapply rtc_l.
    { exists [], 9, PollUnit, []. split; [reflexivity|].
      vm_compute. reflexivity. }
    eapply rtc_l.
    { exists [], 7, (BodyUnit 3), []. split; [reflexivity|].
      vm_compute. reflexivity. }
    eapply rtc_l.
    { exists [], 9, (DoneUnit 3), []. split; [reflexivity|].
      vm_compute. reflexivity. }
    eapply rtc_l.
    { exists [(7, BodyUnit 1)], 7, (BodyUnit 2), []. split; [reflexivity|].
      vm_compute. reflexivity. }
    apply drain_steps with 20. vm_compute. reflexivity. }
  split; [exact H2|]. split; [done|].
  destruct (outcome_does_not_depend_on_the_schedule diamond 7 9 0)
    with (w1 := w1) (w2 := w2) as (Hh & _ & _ & _ & _ & _ & Hr & _).
  - repeat constructor.
  - unfold ptrs_valid. simpl. repeat constructor.
  - apply ranked_acyclic. unfold ranked. simpl. repeat constructor.
  - simpl. lia.
  - exact H1.
  - by apply nf_idle.
  - exact H2.
  - by apply nf_idle.
  - split; [exact Hh|exact Hr].
Defined.

(** ** The order of the ready list *)





